(** * Storage: an append-only record log behind a 2048-byte superblock

    A shallow embedding of [src/storage.py] (class [Storage]) and the
    properties of its record log, root pointer and lock flag.

    Python integers are [Z]; byte strings are [list byte]; the file object
    handed to [Storage] is a record holding the bytes of the store, the
    cursor and the closed flag.  Every method is a computation in a
    state-and-exception monad: an exception leaves the mutations made
    before it in place, as in Python. *)

From Stdlib Require Import ZArith List Lia Bool.
From Stdlib Require Import Strings.Byte.
Import ListNotations.

Open Scope Z_scope.

(** ** Exceptions and the monad *)

(** The exceptions the code can raise: [struct.error] (from [struct.pack]
    and [struct.unpack]), [ValueError] (operations on a closed file, a
    negative seek), [OverflowError] (an integer argument of [seek] or
    [read] that does not fit the index type of the interpreter) and the
    exception of the [portalocker] library. *)
Inductive exception : Type :=
| struct_error
| ValueError
| OverflowError
| LockException.

Inductive result (A : Type) : Type :=
| Ok (a : A)
| Raise (e : exception).

Arguments Ok {A} a.
Arguments Raise {A} e.

Definition M (St A : Type) : Type := St -> result A * St.

Definition ret {St A} (a : A) : M St A := fun s => (Ok a, s).

Definition bind {St A B} (m : M St A) (k : A -> M St B) : M St B :=
  fun s =>
    match m s with
    | (Ok a, s') => k a s'
    | (Raise e, s') => (Raise e, s')
    end.

Notation "x <- m ;; k" := (bind m (fun x => k))
  (at level 61, m at next level, right associativity).
Notation "m ;; k" := (bind m (fun _ => k))
  (at level 61, right associativity).

(** ** Bytes and the [struct] codec for the format ["!Q"] *)

Definition byte_of_Z (z : Z) : byte :=
  match Byte.of_N (Z.to_N (z mod 256)) with
  | Some b => b
  | None => x00
  end.

Definition Z_of_byte (b : byte) : Z := Z.of_N (Byte.to_N b).

(** [n] bytes of [z], most significant first. *)
Fixpoint be_encode (n : nat) (z : Z) : list byte :=
  match n with
  | O => []
  | S k => be_encode k (z / 256) ++ [byte_of_Z z]
  end.

Definition be_decode (bs : list byte) : Z :=
  fold_left (fun acc b => acc * 256 + Z_of_byte b) bs 0.

Definition INTEGER_LENGTH : Z := 8.
Definition SUPERBLOCK_SIZE : Z := 2048.

(** [struct.pack("!Q", integer)]: an unsigned 64-bit big-endian field;
    a value outside [0, 2^64) raises [struct.error]. *)
Definition struct_pack_Q (integer : Z) : result (list byte) :=
  if (0 <=? integer) && (integer <? 2 ^ 64)
  then Ok (be_encode 8 integer)
  else Raise struct_error.

(** [struct.unpack("!Q", bytes_)[0]]: the buffer must hold exactly 8
    bytes, otherwise [struct.error] is raised. *)
Definition struct_unpack_Q (bytes_ : list byte) : result Z :=
  if Nat.eqb (length bytes_) 8
  then Ok (be_decode bytes_)
  else Raise struct_error.

Definition lift_result {St A} (r : result A) : M St A := fun s => (r, s).

(** ** The file object

    A binary file opened for reading and writing at arbitrary offsets, with
    the behaviour of [io.BytesIO] on a 64-bit interpreter: [content] is the
    store, [pos] the cursor of the handle.  Buffering is not modelled (a
    write reaches the store at once) and the size of the store is not
    bounded; the integer arguments of [seek] and [read] are, since a caller
    or a corrupt length prefix can supply any value.

    A file of the operating system behaves the same on the arguments the
    properties below rely on: offsets from 0 to the size of a store that is
    itself a valid offset, and read sizes a buffer can be allocated for.
    Outside them it differs in the exception it raises (a negative offset,
    an offset of 2^63 - 1 or more) or raises where [io.BytesIO] returns the
    rest of the file (a read size too large to allocate); the theorems
    about the methods of [Storage] neither name the exception of such a
    call nor use the result of such a read. *)
Record File : Type := mkFile {
  content : list byte;
  pos : nat;
  closed : bool
}.

(** The two values of [whence] the code uses: the default and
    [os.SEEK_END]. *)
Inductive whence : Type := SEEK_SET | SEEK_END.

Definition PY_SSIZE_T_MAX : Z := 2 ^ 63 - 1.

(** Conversion of a Python integer argument to the index type. *)
Definition as_ssize_t {St} (z : Z) : M St unit :=
  fun s =>
    if (- 2 ^ 63 <=? z) && (z <=? PY_SSIZE_T_MAX) then (Ok tt, s)
    else (Raise OverflowError, s).

Definition check_open : M File unit :=
  fun f => if closed f then (Raise ValueError, f) else (Ok tt, f).

(** [file.seek(offset, whence)]: returns the new absolute position.  A
    negative absolute offset raises and leaves the cursor where it was; a
    target before the start, relative to the end, is clamped to 0. *)
Definition seek (offset : Z) (w : whence) : M File Z :=
  as_ssize_t offset ;;
  check_open ;;
  fun f =>
    match w with
    | SEEK_SET =>
        if offset <? 0 then (Raise ValueError, f)
        else (Ok offset, mkFile (content f) (Z.to_nat offset) (closed f))
    | SEEK_END =>
        let target := Z.max 0 (Z.of_nat (length (content f)) + offset) in
        (Ok target, mkFile (content f) (Z.to_nat target) (closed f))
    end.

Definition tell : M File Z :=
  check_open ;;
  fun f => (Ok (Z.of_nat (pos f)), f).

(** The store after writing [data] at offset [p]: a gap between the end of
    the store and [p] is filled with zero bytes, bytes under [data] are
    overwritten, bytes after it are kept. *)
Definition write_at (c : list byte) (p : nat) (data : list byte) : list byte :=
  firstn p c ++ repeat x00 (p - length c) ++ data ++ skipn (p + length data) c.

(** [file.write(data)]: returns the number of bytes written. *)
Definition file_write (data : list byte) : M File Z :=
  check_open ;;
  fun f =>
    (Ok (Z.of_nat (length data)),
     mkFile (write_at (content f) (pos f) data)
            (pos f + length data) (closed f)).

(** [file.read(size)]: at most [size] bytes from the cursor, fewer at the
    end of the file; a negative [size] reads to the end. *)
Definition file_read (size : Z) : M File (list byte) :=
  as_ssize_t size ;;
  check_open ;;
  fun f =>
    let rest := skipn (pos f) (content f) in
    let data := if size <? 0 then rest else firstn (Z.to_nat size) rest in
    (Ok data, mkFile (content f) (pos f + length data) (closed f)).

Definition flush : M File unit := check_open.

Definition file_close : M File unit :=
  fun f => (Ok tt, mkFile (content f) (pos f) true).

(** [open] of a store holding the bytes [c]: a fresh handle at offset 0. *)
Definition open_ (c : list byte) : File := mkFile c 0 false.

(** ** The [Storage] class *)

Record Storage : Type := mkStorage {
  _file : File;
  locked : bool
}.

(** Run a method of the file object on [self._file]. *)
Definition on_file {A} (m : M File A) : M Storage A :=
  fun s => let (r, f) := m (_file s) in (r, mkStorage f (locked s)).

Definition get_locked : M Storage bool := fun s => (Ok (locked s), s).

Definition set_locked (b : bool) : M Storage unit :=
  fun s => (Ok tt, mkStorage (_file s) b).

(** A call into [portalocker]: [Some e] when the call raises [e]. *)
Definition os_call (o : File -> option exception) : M Storage unit :=
  fun s =>
    match o (_file s) with
    | Some e => (Raise e, s)
    | None => (Ok tt, s)
    end.

Definition _itob (integer : Z) : result (list byte) := struct_pack_Q integer.

Definition _btoi (bytes_ : list byte) : result Z := struct_unpack_Q bytes_.

Definition _seek_end : M Storage unit := on_file (seek 0 SEEK_END) ;; ret tt.

Definition _seek_superblock : M Storage unit :=
  on_file (seek 0 SEEK_SET) ;; ret tt.

Definition _read_integer : M Storage Z :=
  bytes_ <- on_file (file_read INTEGER_LENGTH) ;;
  lift_result (_btoi bytes_).

Definition get_root_address : M Storage Z :=
  _seek_superblock ;;
  address <- _read_integer ;;
  ret address.

Definition read (address : Z) : M Storage (list byte) :=
  on_file (seek address SEEK_SET) ;;
  length <- _read_integer ;;
  data <- on_file (file_read length) ;;
  ret data.

Section Locking.

(** [portalocker.lock(file, LOCK_EX)] and [portalocker.unlock(file)] are
    calls into the operating system; their outcome is a parameter. *)
Variable portalocker_lock : File -> option exception.
Variable portalocker_unlock : File -> option exception.

Definition lock : M Storage bool :=
  held <- get_locked ;;
  if negb held then
    os_call portalocker_lock ;;
    set_locked true ;;
    ret true
  else ret false.

Definition unlock : M Storage unit :=
  held <- get_locked ;;
  if held then
    on_file flush ;;
    os_call portalocker_unlock ;;
    set_locked false
  else ret tt.

Definition _reserve_superblock : M Storage unit :=
  lock ;;
  _seek_end ;;
  address <- on_file tell ;;
  if address <? SUPERBLOCK_SIZE then
    on_file (file_write (repeat x00 (Z.to_nat (SUPERBLOCK_SIZE - address)))) ;;
    ret tt
  else ret tt.

Definition _write_integer (integer : Z) : M Storage unit :=
  lock ;;
  bytes_ <- lift_result (_itob integer) ;;
  on_file (file_write bytes_) ;;
  ret tt.

Definition commit_root_address (root_address : Z) : M Storage unit :=
  lock ;;
  on_file flush ;;
  _seek_superblock ;;
  _write_integer root_address ;;
  on_file flush ;;
  unlock.

Definition write (data : list byte) : M Storage Z :=
  lock ;;
  _seek_end ;;
  address <- on_file tell ;;
  _write_integer (Z.of_nat (length data)) ;;
  on_file (file_write data) ;;
  ret address.

Definition close : M Storage unit :=
  unlock ;;
  on_file file_close.

(** [Storage(file)]: the constructor; when it raises there is no
    instance, the second component is the state the file was left in. *)
Definition __init__ (file : File) : result unit * Storage :=
  _reserve_superblock (mkStorage file false).

End Locking.

(** ** States, the environment and scenarios *)

(** An open handle on the store [c] with the cursor at [p], and a
    [Storage] over it. *)
Definition opened (c : list byte) (p : nat) : File := mkFile c p false.

Definition storage (c : list byte) (p : nat) (l : bool) : Storage :=
  mkStorage (opened c p) l.

(** The operating system grants every request made on an open handle. *)
Definition granted (o : File -> option exception) : Prop :=
  forall f, closed f = false -> o f = None.

Definition always_granted : File -> option exception := fun _ => None.

Definition never_granted : File -> option exception :=
  fun _ => Some LockException.

(** A store is initialized once the superblock is reserved and the handle
    is open. *)
Definition initialized (s : Storage) : Prop :=
  closed (_file s) = false /\
  SUPERBLOCK_SIZE <= Z.of_nat (length (content (_file s))).

(** A call of [lock] on [s] gets through: the flag is already set, or the
    operating system grants the request. *)
Definition lockable (o : File -> option exception) (s : Storage) : Prop :=
  locked s = true \/ o (_file s) = None.

(** The bytes [read] finds at [address]: the length prefix. *)
Definition prefix_at (c : list byte) (address : Z) : list byte :=
  firstn 8 (skipn (Z.to_nat address) c).

(** The zero bytes [_reserve_superblock] appends to a store [c]. *)
Definition padding (c : list byte) : list byte :=
  repeat x00 (Z.to_nat (SUPERBLOCK_SIZE - Z.of_nat (length c))).

(** [m] never makes the measure [size] of the state smaller, whether it
    returns or raises. *)
Definition grows {St A} (size : St -> nat) (m : M St A) : Prop :=
  forall s, (size s <= size (snd (m s)))%nat.

Definition file_size (f : File) : nat := length (content f).

Definition store_size (s : Storage) : nat := file_size (_file s).

(** The public methods, as a caller invokes them on an instance. *)
Inductive call : Type :=
| call_write (data : list byte)
| call_read (address : Z)
| call_get_root_address
| call_commit_root_address (root_address : Z)
| call_lock
| call_unlock
| call_close.

Section Scenarios.

Variable portalocker_lock : File -> option exception.
Variable portalocker_unlock : File -> option exception.

(** The instance after one call, whether the call returned or raised. *)
Definition perform (s : Storage) (k : call) : Storage :=
  match k with
  | call_write data => snd (write portalocker_lock data s)
  | call_read address => snd (read address s)
  | call_get_root_address => snd (get_root_address s)
  | call_commit_root_address root_address =>
      snd (commit_root_address portalocker_lock portalocker_unlock
             root_address s)
  | call_lock => snd (lock portalocker_lock s)
  | call_unlock => snd (unlock portalocker_unlock s)
  | call_close => snd (close portalocker_unlock s)
  end.

Definition perform_all (s : Storage) (calls : list call) : Storage :=
  fold_left perform calls s.

(** A new [Storage] over the store the previous instance left behind. *)
Definition reopen : M Storage unit :=
  fun s => __init__ portalocker_lock (open_ (content (_file s))).

(** [commit_root_address(X)], [close()], open again,
    [get_root_address()]. *)
Definition commit_close_reopen_get (X : Z) : M Storage Z :=
  commit_root_address portalocker_lock portalocker_unlock X ;;
  close portalocker_unlock ;;
  reopen ;;
  get_root_address.

(** [write(data)] then [read] at the address it returned. *)
Definition write_then_read (data : list byte) : M Storage (list byte) :=
  address <- write portalocker_lock data ;;
  read address.

End Scenarios.

(** [m] leaves the observation [obs] of the state as it was, whether it
    returns or raises. *)
Definition preserves {St A X} (obs : St -> X) (m : M St A) : Prop :=
  forall s, obs (snd (m s)) = obs s.

(** What a file holds besides its cursor, and what an instance holds
    besides the cursor of its file. *)
Definition file_data (f : File) : list byte * bool := (content f, closed f).

Definition storage_data (s : Storage) : list byte * bool * bool :=
  (file_data (_file s), locked s).

Definition store_content (s : Storage) : list byte := content (_file s).

(** The bytes one [write(data)] appends, and the addresses successive
    writes of the payloads [ds] return on a store of [start] bytes. *)
Definition record (data : list byte) : list byte :=
  be_encode 8 (Z.of_nat (length data)) ++ data.

Fixpoint addresses (start : Z) (ds : list (list byte)) : list Z :=
  match ds with
  | [] => []
  | d :: ds' => start :: addresses (start + 8 + Z.of_nat (length d)) ds'
  end.

Section Batches.

Variable portalocker_lock : File -> option exception.

(** [write] called on each payload in turn, collecting the addresses. *)
Fixpoint write_all (ds : list (list byte)) : M Storage (list Z) :=
  match ds with
  | [] => ret []
  | d :: ds' =>
      address <- write portalocker_lock d ;;
      rest <- write_all ds' ;;
      ret (address :: rest)
  end.

End Batches.

(** For the comparison with [_read_integer], the decoding of an 8-byte
    integer in the words of the specification (section 4.1): the length of
    what the read returned is checked explicitly, and fewer than 8 bytes
    fail with CorruptData, a failure of the storage layer's own and none
    of the exceptions of the libraries. *)
Inductive spec_failure : Type :=
| CorruptData
| Propagated (e : exception).

Definition spec_read_integer : Storage -> (Z + spec_failure) * Storage :=
  fun s =>
    match on_file (file_read INTEGER_LENGTH) s with
    | (Ok bytes_, s') =>
        if (length bytes_ <? 8)%nat then (inr CorruptData, s')
        else (inl (be_decode bytes_), s')
    | (Raise e, s') => (inr (Propagated e), s')
    end.

(** What the caller of a method of the code observes, in the same terms. *)
Definition observed {A} (r : result A) : A + spec_failure :=
  match r with
  | Ok a => inl a
  | Raise e => inr (Propagated e)
  end.

(** * Lemmas *)

(** ** The codec *)

Lemma Z_of_byte_range (b : byte) : 0 <= Z_of_byte b < 256.
Proof.
  unfold Z_of_byte.
  pose proof (Byte.to_N_bounded b). lia.
Qed.

Lemma Z_of_byte_of_Z (z : Z) : Z_of_byte (byte_of_Z z) = z mod 256.
Proof.
  unfold Z_of_byte, byte_of_Z.
  pose proof (Z.mod_pos_bound z 256 ltac:(lia)) as Hm.
  destruct (Byte.of_N (Z.to_N (z mod 256))) as [b|] eqn:E.
  - apply Byte.to_of_N in E. rewrite E. lia.
  - apply Byte.of_N_None_iff in E. lia.
Qed.

Lemma length_be_encode (n : nat) (z : Z) : length (be_encode n z) = n.
Proof.
  revert z; induction n as [|k IH]; intros z; simpl.
  - reflexivity.
  - rewrite length_app, IH. simpl. lia.
Qed.

Lemma be_decode_snoc (bs : list byte) (b : byte) :
  be_decode (bs ++ [b]) = be_decode bs * 256 + Z_of_byte b.
Proof. unfold be_decode. rewrite fold_left_app. reflexivity. Qed.

Lemma be_decode_encode (n : nat) (z : Z) :
  be_decode (be_encode n z) = z mod 256 ^ Z.of_nat n.
Proof.
  revert z; induction n as [|k IH]; intros z.
  - simpl. rewrite Z.mod_1_r. reflexivity.
  - cbn [be_encode]. rewrite be_decode_snoc, IH, Z_of_byte_of_Z.
    rewrite Nat2Z.inj_succ, Z.pow_succ_r by lia.
    rewrite Z.rem_mul_r by lia. lia.
Qed.

Lemma _btoi_itob (integer : Z) :
  0 <= integer < 2 ^ 64 ->
  _itob integer = Ok (be_encode 8 integer) /\
  _btoi (be_encode 8 integer) = Ok integer.
Proof.
  intros H. unfold _itob, _btoi, struct_pack_Q, struct_unpack_Q.
  replace (0 <=? integer) with true by (symmetry; apply Z.leb_le; lia).
  replace (integer <? 2 ^ 64) with true by (symmetry; apply Z.ltb_lt; lia).
  rewrite length_be_encode, be_decode_encode. simpl andb. cbn [Nat.eqb].
  split; [reflexivity|].
  f_equal. apply Z.mod_small. change (256 ^ Z.of_nat 8) with (2 ^ 64). lia.
Qed.

(** ** Running the monad *)

Lemma bind_Ok {St A B} (m : M St A) (k : A -> M St B) s a s' :
  m s = (Ok a, s') -> bind m k s = k a s'.
Proof. intros H. unfold bind. rewrite H. reflexivity. Qed.

Lemma bind_Raise {St A B} (m : M St A) (k : A -> M St B) s e s' :
  m s = (Raise e, s') -> bind m k s = (Raise e, s').
Proof. intros H. unfold bind. rewrite H. reflexivity. Qed.

Lemma storage_eta (s : Storage) :
  closed (_file s) = false ->
  s = storage (content (_file s)) (pos (_file s)) (locked s).
Proof.
  destruct s as [[c p cl] l]. simpl. intros ->. reflexivity.
Qed.

Lemma as_ssize_t_Ok {St} (z : Z) (s : St) :
  - 2 ^ 63 <= z <= PY_SSIZE_T_MAX -> as_ssize_t z s = (Ok tt, s).
Proof.
  intros H. unfold as_ssize_t.
  replace (- 2 ^ 63 <=? z) with true by (symmetry; apply Z.leb_le; lia).
  replace (z <=? PY_SSIZE_T_MAX) with true by (symmetry; apply Z.leb_le; lia).
  reflexivity.
Qed.

Lemma as_ssize_t_Raise {St} (z : Z) (s : St) :
  PY_SSIZE_T_MAX < z -> as_ssize_t z s = (Raise OverflowError, s).
Proof.
  intros H. unfold as_ssize_t.
  replace (z <=? PY_SSIZE_T_MAX) with false by (symmetry; apply Z.leb_gt; lia).
  rewrite andb_false_r. reflexivity.
Qed.

Lemma on_file_run {A} (m : M File A) f l r f' :
  m f = (r, f') -> on_file m (mkStorage f l) = (r, mkStorage f' l).
Proof. intros H. unfold on_file. cbn [_file locked]. rewrite H. reflexivity. Qed.

Lemma seek_set_file c p (address : Z) :
  0 <= address <= PY_SSIZE_T_MAX ->
  seek address SEEK_SET (opened c p) = (Ok address, opened c (Z.to_nat address)).
Proof.
  intros H. unfold seek.
  rewrite (bind_Ok _ _ _ _ _ (as_ssize_t_Ok address _ ltac:(lia))).
  cbv [bind check_open opened closed content].
  destruct (Z.ltb_spec address 0); [lia|]. reflexivity.
Qed.

Lemma seek_end_file c p :
  seek 0 SEEK_END (opened c p) = (Ok (Z.of_nat (length c)), opened c (length c)).
Proof.
  unfold seek.
  rewrite (bind_Ok _ _ _ _ _
             (as_ssize_t_Ok 0 _ ltac:(unfold PY_SSIZE_T_MAX; lia))).
  cbv [bind check_open opened closed content].
  rewrite Z.add_0_r, Z.max_r, Nat2Z.id by lia. reflexivity.
Qed.

Lemma file_read_file c p (size : Z) :
  0 <= size <= PY_SSIZE_T_MAX ->
  file_read size (opened c p)
  = (Ok (firstn (Z.to_nat size) (skipn p c)),
     opened c (p + length (firstn (Z.to_nat size) (skipn p c)))).
Proof.
  intros H. unfold file_read.
  rewrite (bind_Ok _ _ _ _ _ (as_ssize_t_Ok size _ ltac:(lia))).
  cbv [bind check_open opened closed content pos].
  destruct (Z.ltb_spec size 0); [lia|]. reflexivity.
Qed.

Lemma _seek_end_eq c p l :
  _seek_end (storage c p l) = (Ok tt, storage c (length c) l).
Proof.
  unfold _seek_end, storage.
  rewrite (bind_Ok _ _ _ _ _ (on_file_run _ _ l _ _ (seek_end_file c p))).
  reflexivity.
Qed.

Lemma seek_eq c p l (address : Z) :
  0 <= address <= PY_SSIZE_T_MAX ->
  on_file (seek address SEEK_SET) (storage c p l)
  = (Ok address, storage c (Z.to_nat address) l).
Proof.
  intros H. apply on_file_run, seek_set_file, H.
Qed.

Lemma seek_overflow c p l (address : Z) :
  PY_SSIZE_T_MAX < address ->
  on_file (seek address SEEK_SET) (storage c p l)
  = (Raise OverflowError, storage c p l).
Proof.
  intros H. apply on_file_run. unfold seek.
  apply bind_Raise, as_ssize_t_Raise, H.
Qed.

Lemma _seek_superblock_eq c p l :
  _seek_superblock (storage c p l) = (Ok tt, storage c 0 l).
Proof.
  unfold _seek_superblock.
  rewrite (bind_Ok _ _ _ _ _
             (seek_eq c p l 0 ltac:(unfold PY_SSIZE_T_MAX; lia))).
  reflexivity.
Qed.

Lemma tell_eq c p l :
  on_file tell (storage c p l) = (Ok (Z.of_nat p), storage c p l).
Proof. reflexivity. Qed.

Lemma flush_eq c p l :
  on_file flush (storage c p l) = (Ok tt, storage c p l).
Proof. reflexivity. Qed.

Lemma file_write_eq c p l data :
  on_file (file_write data) (storage c p l)
  = (Ok (Z.of_nat (length data)),
     storage (write_at c p data) (p + length data) l).
Proof. reflexivity. Qed.

Lemma file_read_eq c p l (size : Z) :
  0 <= size <= PY_SSIZE_T_MAX ->
  on_file (file_read size) (storage c p l)
  = (Ok (firstn (Z.to_nat size) (skipn p c)),
     storage c (p + length (firstn (Z.to_nat size) (skipn p c))) l).
Proof.
  intros H. apply on_file_run, file_read_file, H.
Qed.

(** Writing at the end of the store appends. *)
Lemma write_at_end c data : write_at c (length c) data = c ++ data.
Proof.
  unfold write_at.
  rewrite firstn_all, Nat.sub_diag, skipn_all2 by lia.
  simpl. rewrite app_nil_r. reflexivity.
Qed.

(** Writing at offset 0 over a store that is long enough replaces its
    first bytes and nothing else. *)
Lemma write_at_start c data :
  (length data <= length c)%nat ->
  write_at c 0 data = data ++ skipn (length data) c.
Proof. intros H. unfold write_at. reflexivity. Qed.

Lemma length_write_at_start c data :
  (length data <= length c)%nat ->
  length (write_at c 0 data) = length c.
Proof.
  intros H. rewrite write_at_start by exact H.
  rewrite length_app, length_skipn. lia.
Qed.

Lemma always_granted_granted : granted always_granted.
Proof. intros f _. reflexivity. Qed.

Lemma granted_lockable o c p l : granted o -> lockable o (storage c p l).
Proof. intros G. right. apply G. reflexivity. Qed.

Lemma be_decode_nonneg (bs : list byte) : 0 <= be_decode bs.
Proof.
  induction bs as [|b bs IH] using rev_ind.
  - reflexivity.
  - rewrite be_decode_snoc. pose proof (Z_of_byte_range b). lia.
Qed.

Ltac step E := rewrite (bind_Ok _ _ _ _ _ E).
Ltac stop E := rewrite (bind_Raise _ _ _ _ _ E).

Section Methods.

Variable portalocker_lock : File -> option exception.
Variable portalocker_unlock : File -> option exception.

Lemma lock_eq s :
  lockable portalocker_lock s ->
  lock portalocker_lock s = (Ok (negb (locked s)), mkStorage (_file s) true).
Proof.
  intros L. unfold lock, get_locked, os_call, set_locked, bind, ret.
  destruct s as [f [|]]; cbn [locked negb _file] in *; [reflexivity|].
  destruct L as [L|L]; [discriminate|].
  cbn [_file] in L. rewrite L. reflexivity.
Qed.

Lemma lock_refused s e :
  locked s = false ->
  portalocker_lock (_file s) = Some e ->
  lock portalocker_lock s = (Raise e, s).
Proof.
  intros Hl He. unfold lock, get_locked, os_call, bind.
  rewrite Hl. cbn [negb]. rewrite He. reflexivity.
Qed.

(** [lock] either gets through or raises, leaving the instance as it
    was. *)
Lemma lock_cases s :
  lockable portalocker_lock s \/
  exists e, lock portalocker_lock s = (Raise e, s).
Proof.
  destruct (locked s) eqn:Hl; [left; left; exact Hl|].
  destruct (portalocker_lock (_file s)) as [e|] eqn:He.
  - right. exists e. apply lock_refused; assumption.
  - left. right. exact He.
Qed.

Lemma unlock_eq c p l :
  granted portalocker_unlock ->
  unlock portalocker_unlock (storage c p l) = (Ok tt, storage c p false).
Proof.
  intros G. unfold unlock, get_locked, os_call, set_locked, bind, ret.
  unfold storage. destruct l; cbn [locked]; [|reflexivity].
  cbv [on_file flush check_open _file opened closed locked].
  rewrite (G (mkFile c p false) eq_refl). reflexivity.
Qed.

Lemma _write_integer_eq c p integer :
  0 <= integer < 2 ^ 64 ->
  _write_integer portalocker_lock integer (storage c p true)
  = (Ok tt, storage (write_at c p (be_encode 8 integer)) (p + 8) true).
Proof.
  intros H. unfold _write_integer.
  step (lock_eq (storage c p true) (or_introl eq_refl)).
  destruct (_btoi_itob integer H) as [-> _].
  unfold lift_result, bind at 1.
  step (file_write_eq c p true (be_encode 8 integer)).
  rewrite length_be_encode. reflexivity.
Qed.

Lemma _write_integer_range c p integer :
  ~ 0 <= integer < 2 ^ 64 ->
  _write_integer portalocker_lock integer (storage c p true)
  = (Raise struct_error, storage c p true).
Proof.
  intros H. unfold _write_integer.
  step (lock_eq (storage c p true) (or_introl eq_refl)).
  unfold _itob, struct_pack_Q, lift_result, bind.
  destruct (Z.leb_spec 0 integer), (Z.ltb_spec integer (2 ^ 64));
    cbn [andb]; try reflexivity; lia.
Qed.

(** [write] on an open handle whose lock request gets through. *)
Lemma write_eq c p l data :
  lockable portalocker_lock (storage c p l) ->
  Z.of_nat (length data) < 2 ^ 64 ->
  write portalocker_lock data (storage c p l)
  = (Ok (Z.of_nat (length c)),
     storage (c ++ be_encode 8 (Z.of_nat (length data)) ++ data)
             (length c + 8 + length data) true).
Proof.
  intros L H. unfold write.
  step (lock_eq _ L). cbn [storage _file].
  step (_seek_end_eq c p true).
  step (tell_eq c (length c) true).
  step (_write_integer_eq c (length c) (Z.of_nat (length data))
          ltac:(lia)).
  step (file_write_eq (write_at c (length c)
                         (be_encode 8 (Z.of_nat (length data))))
          (length c + 8) true data).
  unfold ret. rewrite write_at_end.
  replace (length c + 8)%nat
    with (length (c ++ be_encode 8 (Z.of_nat (length data)))) at 1
    by (rewrite length_app, length_be_encode; reflexivity).
  rewrite write_at_end, <- app_assoc. reflexivity.
Qed.

Lemma write_too_long c p l data :
  lockable portalocker_lock (storage c p l) ->
  2 ^ 64 <= Z.of_nat (length data) ->
  write portalocker_lock data (storage c p l)
  = (Raise struct_error, storage c (length c) true).
Proof.
  intros L H. unfold write.
  step (lock_eq _ L). cbn [storage _file].
  step (_seek_end_eq c p true).
  step (tell_eq c (length c) true).
  stop (_write_integer_range c (length c) (Z.of_nat (length data))
          ltac:(lia)).
  reflexivity.
Qed.

End Methods.

(** ** Reading *)

Lemma _read_integer_eq c p l :
  _read_integer (storage c p l)
  = (_btoi (firstn 8 (skipn p c)),
     storage c (p + length (firstn 8 (skipn p c))) l).
Proof.
  unfold _read_integer.
  step (file_read_eq c p l INTEGER_LENGTH
          ltac:(unfold INTEGER_LENGTH, PY_SSIZE_T_MAX; lia)).
  reflexivity.
Qed.

Lemma _btoi_short (bytes_ : list byte) :
  length bytes_ <> 8%nat -> _btoi bytes_ = Raise struct_error.
Proof.
  intros H. unfold _btoi, struct_unpack_Q.
  destruct (Nat.eqb_spec (length bytes_) 8); [contradiction|reflexivity].
Qed.

Lemma _btoi_full (bytes_ : list byte) :
  length bytes_ = 8%nat -> _btoi bytes_ = Ok (be_decode bytes_).
Proof.
  intros H. unfold _btoi, struct_unpack_Q. rewrite H. reflexivity.
Qed.

Lemma length_prefix_at c address :
  0 <= address ->
  (length (prefix_at c address) = 8)%nat <->
  address + 8 <= Z.of_nat (length c).
Proof.
  intros H. unfold prefix_at. rewrite length_firstn, length_skipn. lia.
Qed.

(** [read] where fewer than 8 bytes lie at [address]. *)
Lemma read_short c p l address :
  0 <= address <= PY_SSIZE_T_MAX ->
  Z.of_nat (length c) < address + 8 ->
  read address (storage c p l)
  = (Raise struct_error,
     storage c (Z.to_nat address + length (prefix_at c address)) l).
Proof.
  intros Ha Hs. unfold read.
  step (seek_eq c p l address Ha).
  apply bind_Raise. rewrite _read_integer_eq.
  fold (prefix_at c address). rewrite _btoi_short; [reflexivity|].
  rewrite length_prefix_at; lia.
Qed.

(** [read] where the 8 bytes of a prefix lie at [address]: the payload is
    what the store holds after the prefix, cut at the decoded length. *)
Lemma read_eq c p l address :
  0 <= address <= PY_SSIZE_T_MAX ->
  address + 8 <= Z.of_nat (length c) ->
  be_decode (prefix_at c address) <= PY_SSIZE_T_MAX ->
  read address (storage c p l)
  = (Ok (firstn (Z.to_nat (be_decode (prefix_at c address)))
           (skipn (Z.to_nat address + 8) c)),
     storage c
       (Z.to_nat address + 8 +
        length (firstn (Z.to_nat (be_decode (prefix_at c address)))
                  (skipn (Z.to_nat address + 8) c))) l).
Proof.
  intros Ha Hs Hn. unfold read.
  assert (Hlen : length (prefix_at c address) = 8%nat)
    by (apply length_prefix_at; lia).
  step (seek_eq c p l address Ha).
  rewrite (bind_Ok _ _ _ (be_decode (prefix_at c address))
             (storage c (Z.to_nat address + 8) l)).
  - step (file_read_eq c (Z.to_nat address + 8) l
            (be_decode (prefix_at c address))
            (conj (be_decode_nonneg _) Hn)).
    reflexivity.
  - rewrite _read_integer_eq. fold (prefix_at c address).
    rewrite (_btoi_full _ Hlen), Hlen. reflexivity.
Qed.

Lemma get_root_address_eq c p l :
  (8 <= length c)%nat ->
  get_root_address (storage c p l)
  = (Ok (be_decode (firstn 8 c)), storage c 8 l).
Proof.
  intros H. unfold get_root_address.
  step (_seek_superblock_eq c p l).
  rewrite (bind_Ok _ _ _ (be_decode (firstn 8 c)) (storage c 8 l)).
  - reflexivity.
  - rewrite _read_integer_eq. cbn [skipn].
    rewrite _btoi_full, length_firstn by (rewrite length_firstn; lia).
    replace (Nat.min 8 (length c)) with 8%nat by lia. reflexivity.
Qed.

(** ** Reservation, commit and close *)

Lemma length_padding c :
  length (padding c) = Z.to_nat (SUPERBLOCK_SIZE - Z.of_nat (length c)).
Proof. unfold padding. apply repeat_length. Qed.

Lemma _seek_end_closed c p l :
  _seek_end (mkStorage (mkFile c p true) l)
  = (Raise ValueError, mkStorage (mkFile c p true) l).
Proof. reflexivity. Qed.

Section Superblock.

Variable portalocker_lock : File -> option exception.
Variable portalocker_unlock : File -> option exception.

Lemma _reserve_superblock_short c p l :
  lockable portalocker_lock (storage c p l) ->
  Z.of_nat (length c) < SUPERBLOCK_SIZE ->
  _reserve_superblock portalocker_lock (storage c p l)
  = (Ok tt, storage (c ++ padding c) (length c + length (padding c)) true).
Proof.
  intros L H. unfold _reserve_superblock.
  step (lock_eq _ _ L). cbn [storage _file].
  step (_seek_end_eq c p true).
  step (tell_eq c (length c) true).
  destruct (Z.ltb_spec (Z.of_nat (length c)) SUPERBLOCK_SIZE); [|lia].
  step (file_write_eq c (length c) true (padding c)).
  rewrite write_at_end. reflexivity.
Qed.

Lemma _reserve_superblock_long c p l :
  lockable portalocker_lock (storage c p l) ->
  SUPERBLOCK_SIZE <= Z.of_nat (length c) ->
  _reserve_superblock portalocker_lock (storage c p l)
  = (Ok tt, storage c (length c) true).
Proof.
  intros L H. unfold _reserve_superblock.
  step (lock_eq _ _ L). cbn [storage _file].
  step (_seek_end_eq c p true).
  step (tell_eq c (length c) true).
  destruct (Z.ltb_spec (Z.of_nat (length c)) SUPERBLOCK_SIZE); [lia|].
  reflexivity.
Qed.

Lemma commit_root_address_eq c p l root_address :
  lockable portalocker_lock (storage c p l) ->
  granted portalocker_unlock ->
  0 <= root_address < 2 ^ 64 ->
  commit_root_address portalocker_lock portalocker_unlock root_address
    (storage c p l)
  = (Ok tt, storage (write_at c 0 (be_encode 8 root_address)) 8 false).
Proof.
  intros L G H. unfold commit_root_address.
  step (lock_eq _ _ L). cbn [storage _file].
  step (flush_eq c p true).
  step (_seek_superblock_eq c p true).
  step (_write_integer_eq portalocker_lock c 0 root_address H).
  step (flush_eq (write_at c 0 (be_encode 8 root_address)) 8 true).
  apply unlock_eq, G.
Qed.

Lemma close_eq c p l :
  granted portalocker_unlock ->
  close portalocker_unlock (storage c p l)
  = (Ok tt, mkStorage (mkFile c p true) false).
Proof.
  intros G. unfold close.
  step (unlock_eq portalocker_unlock c p l G).
  reflexivity.
Qed.

(** What a successful [write] did. *)
Lemma write_Ok_inv data s address s' :
  write portalocker_lock data s = (Ok address, s') ->
  address = Z.of_nat (length (content (_file s))) /\
  content (_file s')
  = content (_file s) ++ be_encode 8 (Z.of_nat (length data)) ++ data.
Proof.
  destruct s as [[c p cl] l]. cbn [_file content].
  destruct (lock_cases portalocker_lock (mkStorage (mkFile c p cl) l))
    as [L|[e He]].
  2:{ unfold write. stop He. discriminate. }
  destruct cl.
  - unfold write. step (lock_eq _ _ L). cbn [_file].
    stop (_seek_end_closed c p true). discriminate.
  - change (mkStorage (mkFile c p false) l) with (storage c p l) in *.
    destruct (Z_lt_ge_dec (Z.of_nat (length data)) (2 ^ 64)) as [Hd|Hd].
    + rewrite (write_eq portalocker_lock c p l data L Hd).
      intros E. injection E as <- <-. split; reflexivity.
    + rewrite (write_too_long portalocker_lock c p l data L ltac:(lia)).
      discriminate.
Qed.

(** [write] is append-only, whatever its outcome. *)
Lemma write_appends data s :
  exists suffix,
    content (_file (snd (write portalocker_lock data s)))
    = content (_file s) ++ suffix.
Proof.
  destruct s as [[c p cl] l]. cbn [_file content].
  destruct (lock_cases portalocker_lock (mkStorage (mkFile c p cl) l))
    as [L|[e He]].
  2:{ exists []. unfold write. stop He. cbn. rewrite app_nil_r. reflexivity. }
  destruct cl.
  - exists []. unfold write. step (lock_eq _ _ L). cbn [_file].
    stop (_seek_end_closed c p true). cbn. rewrite app_nil_r. reflexivity.
  - change (mkStorage (mkFile c p false) l) with (storage c p l) in *.
    destruct (Z_lt_ge_dec (Z.of_nat (length data)) (2 ^ 64)) as [Hd|Hd].
    + rewrite (write_eq portalocker_lock c p l data L Hd).
      eexists. reflexivity.
    + rewrite (write_too_long portalocker_lock c p l data L ltac:(lia)).
      exists []. cbn. rewrite app_nil_r. reflexivity.
Qed.

End Superblock.

(** ** The store never shrinks *)

Create HintDb grows.

Lemma grows_bind {St A B} size (m : M St A) (k : A -> M St B) :
  grows size m -> (forall a, grows size (k a)) -> grows size (bind m k).
Proof.
  intros Hm Hk s. unfold bind. specialize (Hm s).
  destruct (m s) as [[a|e] s1]; cbn [snd] in *.
  - specialize (Hk a s1). lia.
  - exact Hm.
Qed.

Lemma grows_same {St A} size (m : M St A) :
  (forall s, snd (m s) = s) -> grows size m.
Proof. intros H s. rewrite H. lia. Qed.

Lemma grows_if {St A} size (b : bool) (m1 m2 : M St A) :
  grows size m1 -> grows size m2 -> grows size (if b then m1 else m2).
Proof. destruct b; auto. Qed.

Lemma grows_as_ssize_t {St} size z : grows size (@as_ssize_t St z).
Proof.
  apply grows_same. intros s. unfold as_ssize_t.
  destruct (_ && _); reflexivity.
Qed.

Lemma grows_check_open : grows file_size check_open.
Proof.
  apply grows_same. intros f. unfold check_open.
  destruct (closed f); reflexivity.
Qed.

#[local] Hint Resolve grows_as_ssize_t grows_check_open : grows.

Ltac grows_steps :=
  repeat first
    [ apply grows_bind; [|intros ?]
    | apply grows_if
    | solve [auto with grows]
    | solve [apply grows_same; reflexivity] ].

Lemma grows_seek offset w : grows file_size (seek offset w).
Proof.
  unfold seek. grows_steps.
  intros f. destruct w; [destruct (offset <? 0)|]; cbn; unfold file_size; cbn; lia.
Qed.

Lemma grows_tell : grows file_size tell.
Proof. unfold tell. grows_steps. Qed.

Lemma length_write_at c p data :
  (length c <= length (write_at c p data))%nat.
Proof.
  unfold write_at.
  rewrite !length_app, length_firstn, repeat_length, length_skipn. lia.
Qed.

Lemma grows_file_write data : grows file_size (file_write data).
Proof.
  unfold file_write. grows_steps.
  intros f. unfold file_size. cbn. apply length_write_at.
Qed.

Lemma grows_file_read size : grows file_size (file_read size).
Proof.
  unfold file_read. grows_steps.
  intros f. unfold file_size. cbn. lia.
Qed.

Lemma grows_flush : grows file_size flush.
Proof. apply grows_check_open. Qed.

Lemma grows_file_close : grows file_size file_close.
Proof. intros f. unfold file_size. cbn. lia. Qed.

#[local] Hint Resolve grows_seek grows_tell grows_file_write grows_file_read
  grows_flush grows_file_close : grows.

Lemma grows_on_file {A} (m : M File A) :
  grows file_size m -> grows store_size (on_file m).
Proof.
  intros H s. unfold on_file, store_size. specialize (H (_file s)).
  destruct (m (_file s)) as [r f]. exact H.
Qed.

Lemma grows_os_call o : grows store_size (os_call o).
Proof.
  apply grows_same. intros s. unfold os_call.
  destruct (o (_file s)); reflexivity.
Qed.

Lemma grows_set_locked b : grows store_size (set_locked b).
Proof. intros s. unfold store_size. cbn. lia. Qed.

Lemma grows_get_locked : grows store_size get_locked.
Proof. apply grows_same. reflexivity. Qed.

Lemma grows_lift_result {A} (r : result A) :
  grows store_size (lift_result r).
Proof. apply grows_same. reflexivity. Qed.

#[local] Hint Resolve grows_on_file grows_os_call grows_lift_result
  grows_set_locked grows_get_locked : grows.

Lemma grows__seek_end : grows store_size _seek_end.
Proof. unfold _seek_end. grows_steps. Qed.

Lemma grows__seek_superblock : grows store_size _seek_superblock.
Proof. unfold _seek_superblock. grows_steps. Qed.

Lemma grows__read_integer : grows store_size _read_integer.
Proof. unfold _read_integer. grows_steps. Qed.

#[local] Hint Resolve grows__seek_end grows__seek_superblock
  grows__read_integer : grows.

Lemma grows_get_root_address : grows store_size get_root_address.
Proof. unfold get_root_address. grows_steps. Qed.

Lemma grows_read address : grows store_size (read address).
Proof. unfold read. grows_steps. Qed.

Section Growth.

Variable portalocker_lock : File -> option exception.
Variable portalocker_unlock : File -> option exception.

Lemma grows_lock : grows store_size (lock portalocker_lock).
Proof. unfold lock. grows_steps. Qed.

Lemma grows_unlock : grows store_size (unlock portalocker_unlock).
Proof. unfold unlock. grows_steps. Qed.

Hint Resolve grows_lock grows_unlock : grows.

Lemma grows__write_integer integer :
  grows store_size (_write_integer portalocker_lock integer).
Proof. unfold _write_integer. grows_steps. Qed.

Hint Resolve grows__write_integer : grows.

Lemma grows_write data : grows store_size (write portalocker_lock data).
Proof. unfold write. grows_steps. Qed.

Lemma grows_commit_root_address root_address :
  grows store_size
    (commit_root_address portalocker_lock portalocker_unlock root_address).
Proof. unfold commit_root_address. grows_steps. Qed.

Lemma grows_close : grows store_size (close portalocker_unlock).
Proof. unfold close. grows_steps. Qed.

End Growth.

(** ** Properties *)

Lemma firstn_append_exact {A} (l1 l2 : list A) n :
  length l1 = n -> firstn n (l1 ++ l2) = l1.
Proof.
  intros <-. rewrite firstn_app, Nat.sub_diag, firstn_all.
  cbn. apply app_nil_r.
Qed.

Lemma skipn_append_exact {A} (l1 l2 : list A) n :
  length l1 = n -> skipn n (l1 ++ l2) = l2.
Proof.
  intros <-. rewrite skipn_app, Nat.sub_diag, skipn_all. reflexivity.
Qed.

Lemma prefix_at_record c prefix data :
  length prefix = 8%nat ->
  prefix_at (c ++ prefix ++ data) (Z.of_nat (length c)) = prefix.
Proof.
  intros H. unfold prefix_at. rewrite Nat2Z.id.
  rewrite skipn_append_exact by reflexivity.
  apply firstn_append_exact, H.
Qed.

Lemma be_decode_encode_8 z :
  0 <= z < 2 ^ 64 -> be_decode (be_encode 8 z) = z.
Proof.
  intros H. rewrite be_decode_encode. apply Z.mod_small.
  change (256 ^ Z.of_nat 8) with (2 ^ 64). lia.
Qed.

(** Round trip on the explicit state. *)
Lemma read_after_write portalocker_lock c p l data :
  lockable portalocker_lock (storage c p l) ->
  Z.of_nat (length c) <= PY_SSIZE_T_MAX ->
  Z.of_nat (length data) <= PY_SSIZE_T_MAX ->
  exists p',
    write_then_read portalocker_lock data (storage c p l)
    = (Ok data,
       storage (c ++ be_encode 8 (Z.of_nat (length data)) ++ data) p' true).
Proof.
  intros L Hc Hd. unfold write_then_read.
  assert (H64 : Z.of_nat (length data) < 2 ^ 64)
    by (unfold PY_SSIZE_T_MAX in Hd; lia).
  step (write_eq portalocker_lock c p l data L H64).
  set (prefix := be_encode 8 (Z.of_nat (length data))).
  assert (Hp : length prefix = 8%nat) by apply length_be_encode.
  assert (Hpre : prefix_at (c ++ prefix ++ data) (Z.of_nat (length c)) = prefix)
    by (apply prefix_at_record, Hp).
  assert (Hdec : be_decode prefix = Z.of_nat (length data))
    by (apply be_decode_encode_8; lia).
  eexists.
  rewrite read_eq.
  - rewrite Hpre, Hdec, !Nat2Z.id.
    rewrite app_assoc, skipn_append_exact
      by (rewrite length_app, Hp; reflexivity).
    rewrite firstn_all. reflexivity.
  - lia.
  - rewrite !length_app, Hp. lia.
  - rewrite Hpre, Hdec. exact Hd.
Qed.

Lemma perform_grows portalocker_lock portalocker_unlock s k :
  (store_size s
   <= store_size (perform portalocker_lock portalocker_unlock s k))%nat.
Proof.
  destruct k; cbn [perform].
  - apply grows_write.
  - apply grows_read.
  - apply grows_get_root_address.
  - apply grows_commit_root_address.
  - apply grows_lock.
  - apply grows_unlock.
  - apply grows_close.
Qed.

Lemma perform_all_grows portalocker_lock portalocker_unlock calls s :
  (store_size s
   <= store_size (perform_all portalocker_lock portalocker_unlock s calls))%nat.
Proof.
  unfold perform_all. revert s.
  induction calls as [|k calls IH]; intros s; cbn [fold_left].
  - lia.
  - pose proof (perform_grows portalocker_lock portalocker_unlock s k).
    specialize (IH (perform portalocker_lock portalocker_unlock s k)). lia.
Qed.

(** C2. Round trip: on every initialized store whose size is a valid file
    offset, for every payload [data] of at most 10^6 bytes, [write(data)]
    returns an address and [read] at that address returns exactly
    [data]. *)
Theorem read_write_round_trip portalocker_lock s data :
  granted portalocker_lock ->
  initialized s ->
  Z.of_nat (length (content (_file s))) <= PY_SSIZE_T_MAX ->
  Z.of_nat (length data) <= 10 ^ 6 ->
  exists address s1 s2,
    write portalocker_lock data s = (Ok address, s1) /\
    read address s1 = (Ok data, s2).
Proof.
  intros G [Hopen _] Hc Hd.
  rewrite (storage_eta s Hopen).
  set (c := content (_file s)) in *.
  set (p := pos (_file s)). set (l := locked s).
  pose proof (granted_lockable portalocker_lock c p l G) as L.
  assert (Hd' : Z.of_nat (length data) <= PY_SSIZE_T_MAX)
    by (unfold PY_SSIZE_T_MAX; lia).
  assert (H64 : Z.of_nat (length data) < 2 ^ 64) by lia.
  destruct (read_after_write portalocker_lock c p l data L Hc Hd')
    as [p' Hrt].
  unfold write_then_read in Hrt.
  rewrite (bind_Ok _ _ _ _ _ (write_eq portalocker_lock c p l data L H64))
    in Hrt.
  eexists _, _, _. split; [apply write_eq; assumption|exact Hrt].
Qed.

Lemma read_write_round_trip_witness :
  exists address s1 s2,
    write always_granted [x68; x65; x6c; x6c; x6f]
      (storage (repeat x00 2048) 0 true) = (Ok address, s1) /\
    read address s1 = (Ok [x68; x65; x6c; x6c; x6f], s2).
Proof.
  apply (read_write_round_trip always_granted
           (storage (repeat x00 2048) 0 true) [x68; x65; x6c; x6c; x6f]).
  - intros f _. reflexivity.
  - split; [reflexivity|vm_compute; discriminate].
  - vm_compute; discriminate.
  - vm_compute; discriminate.
Defined.

(** C5. Monotonic addressing: when [write(data1)] returns [address1] and
    a later [write(data2)], issued next or after any other public calls,
    returns [address2], then [address1 < address2] and
    [address1 + 8 + len(data1) <= address2]: the second record starts at or
    after the end of the first. *)
Theorem write_addresses_increase portalocker_lock portalocker_unlock
    s data1 address1 s1 calls data2 address2 s2 :
  write portalocker_lock data1 s = (Ok address1, s1) ->
  write portalocker_lock data2
    (perform_all portalocker_lock portalocker_unlock s1 calls)
  = (Ok address2, s2) ->
  address1 < address2 /\
  address1 + 8 + Z.of_nat (length data1) <= address2.
Proof.
  intros H1 H2.
  apply write_Ok_inv in H1 as [-> Hc1].
  apply write_Ok_inv in H2 as [-> _].
  pose proof (perform_all_grows portalocker_lock portalocker_unlock calls s1)
    as Hg.
  unfold store_size, file_size in Hg.
  rewrite Hc1, !length_app, length_be_encode in Hg. lia.
Qed.

Lemma write_addresses_increase_witness :
  2048 < 2061 /\ 2048 + 8 + Z.of_nat (length [x68; x65; x6c; x6c; x6f]) <= 2061.
Proof.
  apply (write_addresses_increase always_granted always_granted
           (storage (repeat x00 2048) 2048 true)
           [x68; x65; x6c; x6c; x6f]
           2048
           (snd (write always_granted [x68; x65; x6c; x6c; x6f]
                   (storage (repeat x00 2048) 2048 true)))
           [call_get_root_address]
           [x77; x6f; x72; x6c; x64; x21]
           2061
           (snd (write always_granted [x77; x6f; x72; x6c; x64; x21]
                   (perform_all always_granted always_granted
                      (snd (write always_granted [x68; x65; x6c; x6c; x6f]
                              (storage (repeat x00 2048) 2048 true)))
                      [call_get_root_address])))).
  - vm_compute. reflexivity.
  - vm_compute. reflexivity.
Defined.

(** C3, as the code has it.  On an open file with fewer than 8 bytes
    between the cursor and the end, the underlying read returns a buffer
    shorter than 8 bytes; it is handed to [struct.unpack] as it is, whose
    size check rejects it, and [struct.error] reaches the caller of
    [_read_integer]: no value is returned, and the failure is the
    library's, not one the storage code raises after a check of its
    own. *)
Theorem _read_integer_short_buffer s :
  closed (_file s) = false ->
  (length (content (_file s)) < pos (_file s) + 8)%nat ->
  exists bytes_ s',
    on_file (file_read INTEGER_LENGTH) s = (Ok bytes_, s') /\
    (length bytes_ < 8)%nat /\
    _btoi bytes_ = Raise struct_error /\
    _read_integer s = (Raise struct_error, s').
Proof.
  intros Hopen Hshort.
  rewrite (storage_eta s Hopen).
  set (c := content (_file s)) in *.
  set (p := pos (_file s)) in *. set (l := locked s).
  assert (Hlen : (length (firstn 8 (skipn p c)) < 8)%nat)
    by (rewrite length_firstn, length_skipn; lia).
  exists (firstn 8 (skipn p c)),
         (storage c (p + length (firstn 8 (skipn p c))) l).
  split; [|split; [exact Hlen|split]].
  - apply (file_read_eq c p l INTEGER_LENGTH).
    unfold INTEGER_LENGTH, PY_SSIZE_T_MAX. lia.
  - apply _btoi_short. lia.
  - rewrite _read_integer_eq, _btoi_short by lia. reflexivity.
Qed.

Lemma _read_integer_short_buffer_witness :
  exists bytes_ s',
    on_file (file_read INTEGER_LENGTH) (storage [x01; x02; x03] 0 false)
    = (Ok bytes_, s') /\
    (length bytes_ < 8)%nat /\
    _btoi bytes_ = Raise struct_error /\
    _read_integer (storage [x01; x02; x03] 0 false)
    = (Raise struct_error, s').
Proof.
  apply (_read_integer_short_buffer (storage [x01; x02; x03] 0 false)).
  - reflexivity.
  - simpl. lia.
Defined.

(** C3, as stated, fails: on a file of 3 bytes the specification's
    decoding fails with CorruptData after its length check, while the code
    passes the 3 bytes to [struct.unpack] unchecked and what its caller
    observes is [struct.error]. *)
Lemma short_buffer_raises_struct_error :
  let s := storage [x01; x02; x03] 0 false in
  fst (on_file (file_read INTEGER_LENGTH) s) = Ok [x01; x02; x03] /\
  _btoi [x01; x02; x03] = struct_unpack_Q [x01; x02; x03] /\
  fst (_read_integer s) = Raise struct_error /\
  fst (spec_read_integer s) = inr CorruptData /\
  observed (fst (_read_integer s)) <> fst (spec_read_integer s).
Proof.
  vm_compute. repeat split. discriminate.
Qed.

(** C9. A failed lock acquisition propagates and leaves the flag clear:
    when the instance does not hold the lock and [portalocker.lock] raises
    [e], [lock()] raises [e] to its caller and the instance, its [locked]
    flag included, is unchanged, so the flag is still false. *)
Theorem lock_failure_propagates portalocker_lock s e :
  locked s = false ->
  portalocker_lock (_file s) = Some e ->
  lock portalocker_lock s = (Raise e, s) /\
  locked (snd (lock portalocker_lock s)) = false.
Proof.
  intros Hl He.
  rewrite (lock_refused portalocker_lock s e Hl He).
  split; [reflexivity|exact Hl].
Qed.

Lemma lock_failure_propagates_witness :
  lock never_granted (storage [] 0 false)
  = (Raise LockException, storage [] 0 false) /\
  locked (snd (lock never_granted (storage [] 0 false))) = false.
Proof.
  apply (lock_failure_propagates never_granted (storage [] 0 false)
           LockException); reflexivity.
Defined.

(** Committing over a reserved superblock replaces bytes [0, 8). *)
Lemma write_at_root c z :
  (8 <= length c)%nat ->
  write_at c 0 (be_encode 8 z) = be_encode 8 z ++ skipn 8 c.
Proof.
  intros H. rewrite write_at_start by (rewrite length_be_encode; exact H).
  rewrite length_be_encode. reflexivity.
Qed.

(** C4. Root persistence: on every initialized store, for every 64-bit
    [X], [commit_root_address(X)], [close()], a new [Storage] over the
    same store and [get_root_address()] yield [X]. *)
Theorem root_address_persists portalocker_lock portalocker_unlock s X :
  granted portalocker_lock ->
  granted portalocker_unlock ->
  initialized s ->
  0 <= X < 2 ^ 64 ->
  fst (commit_close_reopen_get portalocker_lock portalocker_unlock X s)
  = Ok X.
Proof.
  intros Gl Gu [Hopen Hsize] HX.
  rewrite (storage_eta s Hopen).
  set (c := content (_file s)) in *.
  set (p := pos (_file s)). set (l := locked s).
  unfold SUPERBLOCK_SIZE in Hsize.
  assert (H8 : (8 <= length c)%nat) by lia.
  unfold commit_close_reopen_get.
  step (commit_root_address_eq portalocker_lock portalocker_unlock c p l X
          (granted_lockable _ c p l Gl) Gu HX).
  rewrite (write_at_root c X H8).
  set (c' := be_encode 8 X ++ skipn 8 c).
  assert (Hlen : length c' = length c).
  { unfold c'. rewrite length_app, length_be_encode, length_skipn. lia. }
  step (close_eq portalocker_unlock c' 8 false Gu).
  rewrite (bind_Ok _ _ _ tt (storage c' (length c') true)).
  - rewrite get_root_address_eq by lia. cbn [fst]. f_equal.
    unfold c'. rewrite firstn_append_exact by apply length_be_encode.
    apply be_decode_encode_8, HX.
  - unfold reopen, __init__. cbn [_file content].
    apply (_reserve_superblock_long portalocker_lock c' 0 false).
    + apply granted_lockable, Gl.
    + unfold SUPERBLOCK_SIZE. lia.
Qed.

Lemma root_address_persists_witness :
  fst (commit_close_reopen_get always_granted always_granted 2061
         (storage (repeat x00 2048) 0 true))
  = Ok 2061.
Proof.
  apply (root_address_persists always_granted always_granted
           (storage (repeat x00 2048) 0 true) 2061).
  - intros f _. reflexivity.
  - intros f _. reflexivity.
  - split; [reflexivity|vm_compute; discriminate].
  - lia.
Defined.

(** C10. Frame of the commit: on every initialized store, for every 64-bit
    [r], [commit_root_address(r)] returns, bytes [0, 8) of the store are the
    big-endian encoding of [r], every byte from offset 8 on is what it was,
    and the length of the store is unchanged. *)
Theorem commit_root_address_frame portalocker_lock portalocker_unlock s r :
  granted portalocker_lock ->
  granted portalocker_unlock ->
  initialized s ->
  0 <= r < 2 ^ 64 ->
  exists s',
    commit_root_address portalocker_lock portalocker_unlock r s = (Ok tt, s') /\
    firstn 8 (content (_file s')) = be_encode 8 r /\
    skipn 8 (content (_file s')) = skipn 8 (content (_file s)) /\
    length (content (_file s')) = length (content (_file s)).
Proof.
  intros Gl Gu [Hopen Hsize] Hr.
  destruct s as [[c p cl] l]. cbn [_file closed content] in *. subst cl.
  change (mkStorage (mkFile c p false) l) with (storage c p l).
  unfold SUPERBLOCK_SIZE in Hsize.
  assert (H8 : (8 <= length c)%nat) by lia.
  eexists. split.
  - apply commit_root_address_eq; [apply granted_lockable, Gl|exact Gu|exact Hr].
  - cbn [storage opened _file content]. rewrite (write_at_root c r H8).
    split; [|split].
    + apply firstn_append_exact, length_be_encode.
    + apply skipn_append_exact, length_be_encode.
    + rewrite length_app, length_be_encode, length_skipn. lia.
Qed.

Lemma commit_root_address_frame_witness :
  exists s',
    commit_root_address always_granted always_granted 2061
      (storage (repeat x00 2048) 0 true) = (Ok tt, s') /\
    firstn 8 (content (_file s')) = be_encode 8 2061 /\
    skipn 8 (content (_file s'))
    = skipn 8 (content (_file (storage (repeat x00 2048) 0 true))) /\
    length (content (_file s'))
    = length (content (_file (storage (repeat x00 2048) 0 true))).
Proof.
  apply (commit_root_address_frame always_granted always_granted
           (storage (repeat x00 2048) 0 true) 2061).
  - intros f _. reflexivity.
  - intros f _. reflexivity.
  - split; [reflexivity|vm_compute; discriminate].
  - lia.
Defined.

Lemma Forall_firstn {A} (P : A -> Prop) n (l : list A) :
  Forall P l -> Forall P (firstn n l).
Proof.
  intros H. revert n. induction H as [|a l Ha _ IH]; intros [|n]; cbn.
  - constructor.
  - constructor.
  - constructor.
  - constructor; [exact Ha|apply IH].
Qed.

Lemma Forall_repeat {A} (a : A) n : Forall (eq a) (repeat a n).
Proof. induction n; cbn; constructor; auto. Qed.

Lemma be_decode_zeros n : be_decode (repeat x00 n) = 0.
Proof.
  induction n as [|n IH]; [reflexivity|].
  change (S n) with (1 + n)%nat. rewrite Nat.add_comm, repeat_app.
  cbn [repeat]. rewrite be_decode_snoc, IH. reflexivity.
Qed.

(** C6, as the code has it.  For every backing store shorter than
    SUPERBLOCK_SIZE, constructing a [Storage] over it succeeds and leaves
    the old bytes followed by zero bytes, 2048 bytes in all; then
    [get_root_address()] returns 0 when the store held only zero bytes at
    offsets 0..7, in particular when it was empty. *)
Theorem reservation_pads_short_store portalocker_lock c p :
  granted portalocker_lock ->
  Z.of_nat (length c) < SUPERBLOCK_SIZE ->
  exists s',
    __init__ portalocker_lock (opened c p) = (Ok tt, s') /\
    content (_file s') = c ++ padding c /\
    Z.of_nat (length (content (_file s'))) = SUPERBLOCK_SIZE /\
    (Forall (eq x00) (firstn 8 c) -> fst (get_root_address s') = Ok 0).
Proof.
  intros G H.
  assert (Hlen : Z.of_nat (length (c ++ padding c)) = SUPERBLOCK_SIZE)
    by (rewrite length_app, length_padding; lia).
  eexists. split; [|split; [|split]].
  - unfold __init__.
    apply (_reserve_superblock_short portalocker_lock c p false).
    + apply granted_lockable, G.
    + exact H.
  - reflexivity.
  - exact Hlen.
  - intros Hz. cbn [_file content] in *.
    unfold SUPERBLOCK_SIZE in Hlen.
    rewrite get_root_address_eq by lia. cbn [fst]. f_equal.
    assert (Hall : Forall (eq x00) (firstn 8 (c ++ padding c))).
    { rewrite firstn_app. apply Forall_app. split; [exact Hz|].
      apply Forall_firstn, Forall_repeat. }
    rewrite (Forall_eq_repeat Hall). apply be_decode_zeros.
Qed.

Lemma reservation_pads_short_store_witness :
  exists s',
    __init__ always_granted (opened [] 0) = (Ok tt, s') /\
    content (_file s') = [] ++ padding [] /\
    Z.of_nat (length (content (_file s'))) = SUPERBLOCK_SIZE /\
    (Forall (eq x00) (firstn 8 []) -> fst (get_root_address s') = Ok 0).
Proof.
  apply (reservation_pads_short_store always_granted [] 0%nat).
  - intros f _. reflexivity.
  - vm_compute. reflexivity.
Defined.

(** C6, as stated, fails: a store holding the single byte 01 is shorter
    than SUPERBLOCK_SIZE; after reservation it is 2048 bytes long and
    [get_root_address()] returns 2^56, not 0. *)
Lemma reservation_keeps_old_bytes :
  let s := snd (__init__ always_granted (open_ [x01])) in
  Z.of_nat (length [x01]) < SUPERBLOCK_SIZE /\
  fst (__init__ always_granted (open_ [x01])) = Ok tt /\
  Z.of_nat (length (content (_file s))) = SUPERBLOCK_SIZE /\
  fst (get_root_address s) = Ok (2 ^ 56) /\
  fst (get_root_address s) <> Ok 0.
Proof.
  vm_compute. repeat split; discriminate.
Qed.

(** C7. Reservation is idempotent: on every store of at least
    SUPERBLOCK_SIZE bytes the reservation step, run once or twice and
    whatever its outcome, writes nothing: the bytes of the store, and so
    its length and its records, are what they were. *)
Theorem reservation_idempotent portalocker_lock s :
  SUPERBLOCK_SIZE <= Z.of_nat (length (content (_file s))) ->
  let s1 := snd (_reserve_superblock portalocker_lock s) in
  let s2 := snd (_reserve_superblock portalocker_lock s1) in
  content (_file s1) = content (_file s) /\
  content (_file s2) = content (_file s).
Proof.
  assert (once : forall s0,
             SUPERBLOCK_SIZE <= Z.of_nat (length (content (_file s0))) ->
             content (_file (snd (_reserve_superblock portalocker_lock s0)))
             = content (_file s0)).
  { intros [[c p cl] l] H. cbn [_file content] in *.
    destruct (lock_cases portalocker_lock (mkStorage (mkFile c p cl) l))
      as [L|[e He]].
    2:{ unfold _reserve_superblock. stop He. reflexivity. }
    destruct cl.
    - unfold _reserve_superblock. step (lock_eq _ _ L). cbn [_file].
      stop (_seek_end_closed c p true). reflexivity.
    - change (mkStorage (mkFile c p false) l) with (storage c p l) in *.
      rewrite (_reserve_superblock_long portalocker_lock c p l L H).
      reflexivity. }
  intros H s1 s2.
  assert (H1 : content (_file s1) = content (_file s)) by (apply once, H).
  split; [exact H1|].
  unfold s2. rewrite once by (rewrite H1; exact H). exact H1.
Qed.

Lemma reservation_idempotent_witness :
  let s := storage (repeat x00 2048 ++ [x2a]) 0 false in
  let s1 := snd (_reserve_superblock always_granted s) in
  let s2 := snd (_reserve_superblock always_granted s1) in
  content (_file s1) = content (_file s) /\
  content (_file s2) = content (_file s).
Proof.
  apply (reservation_idempotent always_granted
           (storage (repeat x00 2048 ++ [x2a]) 0 false)).
  vm_compute. discriminate.
Defined.

(** C8. The superblock is out of reach of record writes: from an
    initialized store, after every sequence of public calls (each returning
    or raising) the store is at least SUPERBLOCK_SIZE bytes long; a [write]
    issued then leaves bytes [0, SUPERBLOCK_SIZE) as they were, whatever its
    outcome, and the address it returns is at least SUPERBLOCK_SIZE. *)
Theorem superblock_never_written portalocker_lock portalocker_unlock s calls :
  initialized s ->
  let s' := perform_all portalocker_lock portalocker_unlock s calls in
  SUPERBLOCK_SIZE <= Z.of_nat (length (content (_file s'))) /\
  forall data,
    firstn (Z.to_nat SUPERBLOCK_SIZE)
      (content (_file (snd (write portalocker_lock data s'))))
    = firstn (Z.to_nat SUPERBLOCK_SIZE) (content (_file s')) /\
    forall address s'',
      write portalocker_lock data s' = (Ok address, s'') ->
      SUPERBLOCK_SIZE <= address.
Proof.
  intros [_ Hsize] s'.
  assert (Hs' : SUPERBLOCK_SIZE <= Z.of_nat (length (content (_file s')))).
  { pose proof (perform_all_grows portalocker_lock portalocker_unlock calls s)
      as Hg.
    unfold store_size, file_size in Hg. fold s' in Hg. lia. }
  split; [exact Hs'|].
  intros data. split.
  - destruct (write_appends portalocker_lock data s') as [suffix ->].
    rewrite firstn_app.
    replace (Z.to_nat SUPERBLOCK_SIZE - length (content (_file s')))%nat
      with 0%nat by lia.
    cbn [firstn]. apply app_nil_r.
  - intros address s'' Hw.
    apply write_Ok_inv in Hw as [-> _]. exact Hs'.
Qed.

Lemma superblock_never_written_witness :
  let s := storage (repeat x00 2048) 0 true in
  let s' := perform_all always_granted always_granted s
              [call_write [x68; x65; x6c; x6c; x6f];
               call_commit_root_address 2048;
               call_read 2048;
               call_get_root_address] in
  SUPERBLOCK_SIZE <= Z.of_nat (length (content (_file s'))) /\
  forall data,
    firstn (Z.to_nat SUPERBLOCK_SIZE)
      (content (_file (snd (write always_granted data s'))))
    = firstn (Z.to_nat SUPERBLOCK_SIZE) (content (_file s')) /\
    forall address s'',
      write always_granted data s' = (Ok address, s'') ->
      SUPERBLOCK_SIZE <= address.
Proof.
  apply (superblock_never_written always_granted always_granted
           (storage (repeat x00 2048) 0 true)).
  split; [reflexivity|vm_compute; discriminate].
Defined.

(** C1, as the code has it.  On an open store and for an address
    [0 <= address]: when fewer than 8 bytes lie at [address], which covers
    every address at or beyond the end of the store, [read(address)]
    raises.  When 8 bytes lie there, in a store whose size is a valid file
    offset, neither an address inside the superblock region nor a decoded
    length beyond the end of the store makes [read] fail: for a decoded
    length of at most 10^6 it returns the bytes the store holds after the
    prefix, cut at that length, so fewer bytes than the decoded length when
    the store ends before. *)
Theorem read_outcome s address :
  closed (_file s) = false ->
  0 <= address ->
  let c := content (_file s) in
  let announced := be_decode (prefix_at c address) in
  let rest := skipn (Z.to_nat address + 8) c in
  (Z.of_nat (length c) < address + 8 ->
   exists e, fst (read address s) = Raise e) /\
  (address + 8 <= Z.of_nat (length c) ->
   Z.of_nat (length c) <= PY_SSIZE_T_MAX ->
   announced <= 10 ^ 6 ->
   fst (read address s) = Ok (firstn (Z.to_nat announced) rest) /\
   (Z.of_nat (length rest) < announced ->
    Z.of_nat (length (firstn (Z.to_nat announced) rest)) < announced)).
Proof.
  intros Hopen Ha.
  destruct s as [[c p cl] l]. cbn [_file closed content] in *. subst cl.
  change (mkStorage (mkFile c p false) l) with (storage c p l).
  cbv zeta. split.
  - intros Hs. destruct (Z.leb_spec address PY_SSIZE_T_MAX) as [Hle|Hgt].
    + exists struct_error. rewrite read_short by lia. reflexivity.
    + exists OverflowError. unfold read.
      stop (seek_overflow c p l address Hgt). reflexivity.
  - intros Hs Hc Hn. split.
    + rewrite read_eq by (unfold PY_SSIZE_T_MAX in *; lia). reflexivity.
    + intros Hshort. rewrite length_firstn. lia.
Qed.

Lemma read_outcome_witness :
  let s := storage (repeat x00 2048 ++ record [x68; x65; x6c; x6c; x6f]) 0
             true in
  let c := content (_file s) in
  let announced := be_decode (prefix_at c 2048) in
  let rest := skipn (Z.to_nat 2048 + 8) c in
  (Z.of_nat (length c) < 2048 + 8 ->
   exists e, fst (read 2048 s) = Raise e) /\
  (2048 + 8 <= Z.of_nat (length c) ->
   Z.of_nat (length c) <= PY_SSIZE_T_MAX ->
   announced <= 10 ^ 6 ->
   fst (read 2048 s) = Ok (firstn (Z.to_nat announced) rest) /\
   (Z.of_nat (length rest) < announced ->
    Z.of_nat (length (firstn (Z.to_nat announced) rest)) < announced)).
Proof.
  apply (read_outcome
           (storage (repeat x00 2048 ++ record [x68; x65; x6c; x6c; x6f]) 0
              true) 2048).
  - reflexivity.
  - lia.
Defined.

(** C1, as stated, fails twice.  On a freshly reserved store address 0
    lies in the superblock region and [read(0)] returns the empty payload.
    On a store cut 2 bytes into the payload of a 5-byte record, [read] at
    the address of that record returns those 2 bytes. *)
Lemma read_returns_in_superblock_and_short :
  let fresh := snd (__init__ always_granted (open_ [])) in
  let hello := [x68; x65; x6c; x6c; x6f] in
  let written := snd (write always_granted hello fresh) in
  let cut := mkStorage
               (open_ (firstn (2048 + 8 + 2) (content (_file written))))
               false in
  fst (read 0 fresh) = Ok [] /\
  fst (write always_granted hello fresh) = Ok 2048 /\
  be_decode (prefix_at (content (_file cut)) 2048) = 5 /\
  fst (read 2048 cut) = Ok [x68; x65].
Proof.
  vm_compute. repeat split.
Qed.

(** The scenario of the specification: an empty store is opened, two
    records are written, the second is committed as root, the store is
    closed and opened again, and root and records are read back. *)
Example hello_world_scenario :
  let hello := [x68; x65; x6c; x6c; x6f] in
  let world := [x77; x6f; x72; x6c; x64; x21] in
  let r0 := __init__ always_granted (open_ []) in
  let r1 := write always_granted hello (snd r0) in
  let r2 := write always_granted world (snd r1) in
  let r3 := commit_root_address always_granted always_granted 2061 (snd r2) in
  let r4 := close always_granted (snd r3) in
  let r5 := reopen always_granted (snd r4) in
  let r6 := get_root_address (snd r5) in
  let r7 := read 2061 (snd r6) in
  let r8 := read 2048 (snd r7) in
  fst r0 = Ok tt /\ fst r1 = Ok 2048 /\ fst r2 = Ok 2061 /\
  fst r3 = Ok tt /\ fst r4 = Ok tt /\ fst r5 = Ok tt /\
  fst r6 = Ok 2061 /\ fst r7 = Ok world /\ fst r8 = Ok hello.
Proof. vm_compute. repeat split. Qed.

(** ** Further properties: the codec *)

Lemma byte_of_Z_of_byte (b : byte) : byte_of_Z (Z_of_byte b) = b.
Proof.
  unfold byte_of_Z.
  pose proof (Z_of_byte_range b) as Hr.
  rewrite Z.mod_small by exact Hr.
  unfold Z_of_byte. rewrite N2Z.id, Byte.of_to_N. reflexivity.
Qed.

Lemma byte_of_Z_low (d v : Z) : byte_of_Z (d * 256 + v) = byte_of_Z v.
Proof.
  unfold byte_of_Z. rewrite Z.add_comm, Z.mod_add by lia. reflexivity.
Qed.

Lemma be_decode_bound (bs : list byte) :
  0 <= be_decode bs < 256 ^ Z.of_nat (length bs).
Proof.
  induction bs as [|b bs IH] using rev_ind.
  - cbn. lia.
  - rewrite be_decode_snoc, length_app. cbn [length].
    rewrite Nat.add_1_r, Nat2Z.inj_succ, Z.pow_succ_r by lia.
    pose proof (Z_of_byte_range b). lia.
Qed.

Lemma be_encode_decode (bs : list byte) :
  be_encode (length bs) (be_decode bs) = bs.
Proof.
  induction bs as [|b bs IH] using rev_ind.
  - reflexivity.
  - rewrite be_decode_snoc, length_app. cbn [length].
    rewrite Nat.add_1_r. cbn [be_encode].
    pose proof (Z_of_byte_range b) as Hb.
    rewrite byte_of_Z_low, byte_of_Z_of_byte.
    replace ((be_decode bs * 256 + Z_of_byte b) / 256) with (be_decode bs).
    + rewrite IH. reflexivity.
    + apply Z.div_unique with (r := Z_of_byte b); lia.
Qed.

(** X1. Encoding then decoding: for every integer in [0, 2^64), [_itob]
    returns 8 bytes and [_btoi] of them is the integer. *)
Theorem _itob_then_btoi (integer : Z) :
  0 <= integer < 2 ^ 64 ->
  exists bytes_,
    _itob integer = Ok bytes_ /\
    length bytes_ = 8%nat /\
    _btoi bytes_ = Ok integer.
Proof.
  intros H. destruct (_btoi_itob integer H) as [Hi Hb].
  exists (be_encode 8 integer).
  split; [exact Hi|split; [apply length_be_encode|exact Hb]].
Qed.

Lemma _itob_then_btoi_witness :
  exists bytes_,
    _itob 2061 = Ok bytes_ /\
    length bytes_ = 8%nat /\
    _btoi bytes_ = Ok 2061.
Proof. apply (_itob_then_btoi 2061). lia. Defined.

(** X2. Decoding then encoding: whenever [_btoi] returns an integer for a
    buffer, the integer lies in [0, 2^64) and [_itob] of it is that buffer;
    so two different 8-byte buffers never decode to the same integer. *)
Theorem _btoi_then_itob (bytes_ : list byte) (integer : Z) :
  _btoi bytes_ = Ok integer ->
  0 <= integer < 2 ^ 64 /\ _itob integer = Ok bytes_.
Proof.
  unfold _btoi, struct_unpack_Q.
  destruct (Nat.eqb_spec (length bytes_) 8) as [Hlen|]; [|discriminate].
  intros E. injection E as <-.
  pose proof (be_decode_bound bytes_) as Hb. rewrite Hlen in Hb.
  change (256 ^ Z.of_nat 8) with (2 ^ 64) in Hb.
  split; [exact Hb|].
  unfold _itob, struct_pack_Q.
  replace (0 <=? be_decode bytes_) with true by (symmetry; apply Z.leb_le; lia).
  replace (be_decode bytes_ <? 2 ^ 64) with true
    by (symmetry; apply Z.ltb_lt; lia).
  cbn [andb]. rewrite <- Hlen at 1. rewrite be_encode_decode. reflexivity.
Qed.

Lemma _btoi_then_itob_witness :
  0 <= 258 < 2 ^ 64 /\
  _itob 258 = Ok [x00; x00; x00; x00; x00; x00; x01; x02].
Proof.
  apply (_btoi_then_itob [x00; x00; x00; x00; x00; x00; x01; x02] 258).
  reflexivity.
Defined.

(** ** Further properties: what a method leaves alone *)

Create HintDb preserves.

Lemma preserves_bind {St A B X} (obs : St -> X) (m : M St A)
    (k : A -> M St B) :
  preserves obs m -> (forall a, preserves obs (k a)) ->
  preserves obs (bind m k).
Proof.
  intros Hm Hk s. unfold bind. specialize (Hm s).
  destruct (m s) as [[a|e] s1]; cbn [snd] in *.
  - rewrite (Hk a s1). exact Hm.
  - exact Hm.
Qed.

Lemma preserves_same {St A X} (obs : St -> X) (m : M St A) :
  (forall s, snd (m s) = s) -> preserves obs m.
Proof. intros H s. rewrite H. reflexivity. Qed.

Lemma preserves_if {St A X} (obs : St -> X) (b : bool) (m1 m2 : M St A) :
  preserves obs m1 -> preserves obs m2 ->
  preserves obs (if b then m1 else m2).
Proof. destruct b; auto. Qed.

Lemma preserves_as_ssize_t {St X} (obs : St -> X) z :
  preserves obs (@as_ssize_t St z).
Proof.
  apply preserves_same. intros s. unfold as_ssize_t.
  destruct (_ && _); reflexivity.
Qed.

Lemma preserves_check_open {X} (obs : File -> X) : preserves obs check_open.
Proof.
  apply preserves_same. intros f. unfold check_open.
  destruct (closed f); reflexivity.
Qed.

#[local] Hint Resolve preserves_as_ssize_t preserves_check_open : preserves.

Ltac preserves_steps :=
  repeat first
    [ apply preserves_bind; [|intros ?]
    | apply preserves_if
    | solve [auto with preserves]
    | solve [apply preserves_same; reflexivity] ].

Lemma preserves_seek offset w : preserves file_data (seek offset w).
Proof.
  unfold seek. preserves_steps.
  intros f. destruct w; [destruct (offset <? 0)|]; reflexivity.
Qed.

Lemma preserves_file_read size : preserves file_data (file_read size).
Proof. unfold file_read. preserves_steps. intros f. reflexivity. Qed.

Lemma preserves_flush : preserves file_data flush.
Proof. apply preserves_check_open. Qed.

#[local] Hint Resolve preserves_seek preserves_file_read preserves_flush
  : preserves.

Lemma preserves_on_file {A} (m : M File A) :
  preserves file_data m -> preserves storage_data (on_file m).
Proof.
  intros H s. unfold on_file, storage_data. specialize (H (_file s)).
  destruct (m (_file s)) as [r f]. cbn [snd _file locked] in *.
  rewrite H. reflexivity.
Qed.

Lemma preserves_lift_result {A X} (obs : Storage -> X) (r : result A) :
  preserves obs (lift_result r).
Proof. apply preserves_same. reflexivity. Qed.

Lemma preserves_get_locked {X} (obs : Storage -> X) : preserves obs get_locked.
Proof. apply preserves_same. reflexivity. Qed.

Lemma preserves_os_call {X} (obs : Storage -> X) o : preserves obs (os_call o).
Proof.
  apply preserves_same. intros s. unfold os_call.
  destruct (o (_file s)); reflexivity.
Qed.

#[local] Hint Resolve preserves_on_file preserves_lift_result
  preserves_get_locked preserves_os_call : preserves.

Lemma preserves_read address : preserves storage_data (read address).
Proof. unfold read, _read_integer. preserves_steps. Qed.

Lemma preserves_get_root_address : preserves storage_data get_root_address.
Proof.
  unfold get_root_address, _seek_superblock, _read_integer. preserves_steps.
Qed.

(** An observation of [storage_data] is an observation of the content. *)
Lemma preserves_store_content {A} (m : M Storage A) :
  preserves storage_data m -> preserves store_content m.
Proof.
  intros H s. specialize (H s).
  change (fst (fst (storage_data (snd (m s))))
          = fst (fst (storage_data s))).
  rewrite H. reflexivity.
Qed.

Lemma preserves_set_locked b : preserves store_content (set_locked b).
Proof. intros s. reflexivity. Qed.

Lemma preserves_content_flush : preserves store_content (on_file flush).
Proof. apply preserves_store_content. auto with preserves. Qed.

Lemma preserves_content_file_close :
  preserves store_content (on_file file_close).
Proof. intros s. reflexivity. Qed.

#[local] Hint Resolve preserves_set_locked preserves_content_flush
  preserves_content_file_close : preserves.

Lemma preserves_lock portalocker_lock :
  preserves store_content (lock portalocker_lock).
Proof. unfold lock. preserves_steps. Qed.

Lemma preserves_unlock portalocker_unlock :
  preserves store_content (unlock portalocker_unlock).
Proof. unfold unlock. preserves_steps. Qed.

#[local] Hint Resolve preserves_lock preserves_unlock : preserves.

Lemma preserves_close portalocker_unlock :
  preserves store_content (close portalocker_unlock).
Proof. unfold close. preserves_steps. Qed.

(** X7. Reads are read-only: [read(address)] and [get_root_address()], on
    every instance and for every address, returning or raising, change
    neither the bytes of the store, nor the closed flag of the file, nor
    the lock flag; only the cursor moves. *)
Theorem reads_change_nothing s address :
  storage_data (snd (read address s)) = storage_data s /\
  storage_data (snd (get_root_address s)) = storage_data s.
Proof.
  split.
  - apply preserves_read.
  - apply preserves_get_root_address.
Qed.

(** ** Further properties: the lock discipline *)

(** The instance a successful [write] leaves behind. *)
Lemma write_Ok_state portalocker_lock data s address s1 :
  write portalocker_lock data s = (Ok address, s1) ->
  s1 = storage (store_content s ++ record data)
               (length (store_content s) + 8 + length data) true.
Proof.
  destruct s as [[c p cl] l]. unfold store_content. cbn [_file content].
  destruct (lock_cases portalocker_lock (mkStorage (mkFile c p cl) l))
    as [L|[e He]].
  2:{ unfold write. stop He. discriminate. }
  destruct cl.
  - unfold write. step (lock_eq _ _ L). cbn [_file].
    stop (_seek_end_closed c p true). discriminate.
  - change (mkStorage (mkFile c p false) l) with (storage c p l) in *.
    destruct (Z_lt_ge_dec (Z.of_nat (length data)) (2 ^ 64)) as [Hd|Hd].
    + rewrite (write_eq portalocker_lock c p l data L Hd).
      intros E. injection E as _ <-. reflexivity.
    + rewrite (write_too_long portalocker_lock c p l data L ltac:(lia)).
      discriminate.
Qed.

(** X3. A root address outside [0, 2^64): on an open store whose lock
    request gets through, [commit_root_address] raises [struct.error],
    writes nothing, and returns with the lock still held: the release at
    the end of the method is not reached. *)
Theorem commit_root_address_out_of_range portalocker_lock portalocker_unlock
    s root_address :
  closed (_file s) = false ->
  lockable portalocker_lock s ->
  ~ 0 <= root_address < 2 ^ 64 ->
  exists s',
    commit_root_address portalocker_lock portalocker_unlock root_address s
    = (Raise struct_error, s') /\
    store_content s' = store_content s /\
    locked s' = true.
Proof.
  intros Hopen L Hr.
  destruct s as [[c p cl] l]. cbn [_file closed] in Hopen. subst cl.
  change (mkStorage (mkFile c p false) l) with (storage c p l) in *.
  exists (storage c 0 true). split; [|split; reflexivity].
  unfold commit_root_address.
  step (lock_eq _ _ L). cbn [storage _file].
  step (flush_eq c p true).
  step (_seek_superblock_eq c p true).
  stop (_write_integer_range portalocker_lock c 0 root_address Hr).
  reflexivity.
Qed.

Lemma commit_root_address_out_of_range_witness :
  exists s',
    commit_root_address always_granted always_granted (-1)
      (storage (repeat x00 2048) 0 false)
    = (Raise struct_error, s') /\
    store_content s' = store_content (storage (repeat x00 2048) 0 false) /\
    locked s' = true.
Proof.
  apply (commit_root_address_out_of_range always_granted always_granted
           (storage (repeat x00 2048) 0 false) (-1)).
  - reflexivity.
  - right. reflexivity.
  - lia.
Defined.

(** X4. A refused lock changes nothing: when the instance does not hold the
    lock and [portalocker.lock] raises [e], then [write],
    [commit_root_address] and the reservation step each raise [e] and leave
    the instance, the store and the cursor as they were. *)
Theorem refused_lock_changes_nothing portalocker_lock portalocker_unlock
    s e data root_address :
  locked s = false ->
  portalocker_lock (_file s) = Some e ->
  write portalocker_lock data s = (Raise e, s) /\
  commit_root_address portalocker_lock portalocker_unlock root_address s
  = (Raise e, s) /\
  _reserve_superblock portalocker_lock s = (Raise e, s).
Proof.
  intros Hl He.
  pose proof (lock_refused portalocker_lock s e Hl He) as H.
  split; [|split].
  - unfold write. stop H. reflexivity.
  - unfold commit_root_address. stop H. reflexivity.
  - unfold _reserve_superblock. stop H. reflexivity.
Qed.

Lemma refused_lock_changes_nothing_witness :
  let s := storage (repeat x00 2048) 0 false in
  write never_granted [x2a] s = (Raise LockException, s) /\
  commit_root_address never_granted always_granted 2048 s
  = (Raise LockException, s) /\
  _reserve_superblock never_granted s = (Raise LockException, s).
Proof.
  apply (refused_lock_changes_nothing never_granted always_granted
           (storage (repeat x00 2048) 0 false) LockException [x2a] 2048);
    reflexivity.
Defined.

(** X5. [write] keeps the lock: after a [write] that returned, the lock
    flag is set, and a further [write] of a payload shorter than 2^64 bytes
    returns whatever the operating system would answer to a lock request,
    since none is made; its address is the end of the first record. *)
Theorem write_keeps_lock portalocker_lock other_lock s data1 address1 s1
    data2 :
  write portalocker_lock data1 s = (Ok address1, s1) ->
  Z.of_nat (length data2) < 2 ^ 64 ->
  locked s1 = true /\
  exists s2,
    write other_lock data2 s1
    = (Ok (address1 + 8 + Z.of_nat (length data1)), s2).
Proof.
  intros H1 Hd.
  pose proof (write_Ok_state _ _ _ _ _ H1) as ->.
  apply write_Ok_inv in H1 as [-> _].
  split; [reflexivity|].
  eexists.
  rewrite (write_eq other_lock _ _ true data2 (or_introl eq_refl) Hd).
  f_equal. f_equal. unfold record, store_content.
  rewrite !length_app, length_be_encode. lia.
Qed.

Lemma write_keeps_lock_witness :
  locked (snd (write always_granted [x68; x65; x6c; x6c; x6f]
                 (storage (repeat x00 2048) 0 false))) = true /\
  exists s2,
    write never_granted [x21]
      (snd (write always_granted [x68; x65; x6c; x6c; x6f]
              (storage (repeat x00 2048) 0 false)))
    = (Ok (2048 + 8 + Z.of_nat (length [x68; x65; x6c; x6c; x6f])), s2).
Proof.
  apply (write_keeps_lock always_granted never_granted
           (storage (repeat x00 2048) 0 false)
           [x68; x65; x6c; x6c; x6f] 2048
           (snd (write always_granted [x68; x65; x6c; x6c; x6f]
                   (storage (repeat x00 2048) 0 false)))
           [x21]).
  - vm_compute. reflexivity.
  - vm_compute. reflexivity.
Defined.

(** X6. [commit_root_address] releases the lock: on an open store, with
    the operating system granting lock and release, a commit of a 64-bit
    value returns with the lock flag cleared, whether or not the lock was
    held before; a following [write] has to ask for the lock again, and
    when that request raises [e] the write raises [e] and writes
    nothing. *)
Theorem commit_releases_lock portalocker_lock portalocker_unlock other_lock
    s root_address e data :
  granted portalocker_lock ->
  granted portalocker_unlock ->
  closed (_file s) = false ->
  0 <= root_address < 2 ^ 64 ->
  (forall f, other_lock f = Some e) ->
  exists s',
    commit_root_address portalocker_lock portalocker_unlock root_address s
    = (Ok tt, s') /\
    locked s' = false /\
    write other_lock data s' = (Raise e, s').
Proof.
  intros Gl Gu Hopen Hr Ho.
  destruct s as [[c p cl] l]. cbn [_file closed] in Hopen. subst cl.
  change (mkStorage (mkFile c p false) l) with (storage c p l).
  eexists. split; [|split].
  - apply commit_root_address_eq;
      [apply granted_lockable, Gl|exact Gu|exact Hr].
  - reflexivity.
  - unfold write. apply bind_Raise, lock_refused; [reflexivity|apply Ho].
Qed.

Lemma commit_releases_lock_witness :
  exists s',
    commit_root_address always_granted always_granted 2048
      (storage (repeat x00 2048) 0 true)
    = (Ok tt, s') /\
    locked s' = false /\
    write never_granted [x2a] s' = (Raise LockException, s').
Proof.
  apply (commit_releases_lock always_granted always_granted never_granted
           (storage (repeat x00 2048) 0 true) 2048 LockException [x2a]).
  - intros f _. reflexivity.
  - intros f _. reflexivity.
  - reflexivity.
  - lia.
  - intros f. reflexivity.
Defined.

(** X18. The lock flag is not a count: on an open store, with the
    operating system granting lock and release, [lock()], [lock()],
    [unlock()], [lock()] return, in this order, whether the lock was not
    held at first, [False], nothing, and [True]: one [unlock()] released what two
    [lock()] calls had taken. *)
Theorem lock_is_not_counted portalocker_lock portalocker_unlock s :
  granted portalocker_lock ->
  granted portalocker_unlock ->
  closed (_file s) = false ->
  fst ((first <- lock portalocker_lock ;;
        second <- lock portalocker_lock ;;
        unlock portalocker_unlock ;;
        third <- lock portalocker_lock ;;
        ret (first, second, third)) s)
  = Ok (negb (locked s), false, true).
Proof.
  intros Gl Gu Hopen.
  destruct s as [[c p cl] l]. cbn [_file closed locked] in *. subst cl.
  change (mkStorage (mkFile c p false) l) with (storage c p l).
  step (lock_eq portalocker_lock (storage c p l)
          (granted_lockable _ c p l Gl)).
  cbn [storage _file locked].
  step (lock_eq portalocker_lock (storage c p true) (or_introl eq_refl)).
  cbn [storage _file locked negb].
  step (unlock_eq portalocker_unlock c p true Gu).
  step (lock_eq portalocker_lock (storage c p false)
          (granted_lockable _ c p false Gl)).
  reflexivity.
Qed.

Lemma lock_is_not_counted_witness :
  fst ((first <- lock always_granted ;;
        second <- lock always_granted ;;
        unlock always_granted ;;
        third <- lock always_granted ;;
        ret (first, second, third)) (storage [] 0 false))
  = Ok (negb (locked (storage [] 0 false)), false, true).
Proof.
  apply (lock_is_not_counted always_granted always_granted
           (storage [] 0 false)).
  - intros f _. reflexivity.
  - intros f _. reflexivity.
  - reflexivity.
Defined.

(** ** Further properties: records and the root *)

Lemma write_at_0 c data : write_at c 0 data = data ++ skipn (length data) c.
Proof. reflexivity. Qed.

Lemma write_at_0_encode c z :
  write_at c 0 (be_encode 8 z) = be_encode 8 z ++ skipn 8 c.
Proof. rewrite write_at_0, length_be_encode. reflexivity. Qed.

Lemma skipn_app_long {A} n (l1 l2 : list A) :
  (n <= length l1)%nat -> skipn n (l1 ++ l2) = skipn n l1 ++ l2.
Proof.
  intros H. rewrite skipn_app.
  replace (n - length l1)%nat with 0%nat by lia. reflexivity.
Qed.

Lemma firstn_app_long {A} n (l1 l2 : list A) :
  (n <= length l1)%nat -> firstn n (l1 ++ l2) = firstn n l1.
Proof.
  intros H. rewrite firstn_app.
  replace (n - length l1)%nat with 0%nat by lia.
  cbn [firstn]. apply app_nil_r.
Qed.

Lemma length_record data : length (record data) = (8 + length data)%nat.
Proof. unfold record. rewrite length_app, length_be_encode. reflexivity. Qed.

(** Reading a record that sits complete in the store, whatever follows
    it. *)
Lemma read_record c0 data rest p l :
  Z.of_nat (length c0) <= PY_SSIZE_T_MAX ->
  Z.of_nat (length data) <= PY_SSIZE_T_MAX ->
  fst (read (Z.of_nat (length c0)) (storage (c0 ++ record data ++ rest) p l))
  = Ok data.
Proof.
  intros Hc Hd.
  set (prefix := be_encode 8 (Z.of_nat (length data))).
  assert (Hp : length prefix = 8%nat) by apply length_be_encode.
  assert (Hstore : c0 ++ record data ++ rest = c0 ++ prefix ++ data ++ rest)
    by (unfold record; fold prefix; rewrite <- app_assoc; reflexivity).
  rewrite Hstore.
  assert (Hpre : prefix_at (c0 ++ prefix ++ data ++ rest)
                   (Z.of_nat (length c0)) = prefix)
    by (apply prefix_at_record, Hp).
  assert (Hdec : be_decode prefix = Z.of_nat (length data)).
  { apply be_decode_encode_8. unfold PY_SSIZE_T_MAX in Hd. lia. }
  rewrite read_eq.
  - cbn [fst]. rewrite Hpre, Hdec, !Nat2Z.id. f_equal.
    rewrite (app_assoc c0 prefix), skipn_append_exact
      by (rewrite length_app, Hp; reflexivity).
    apply firstn_append_exact. reflexivity.
  - lia.
  - rewrite !length_app, Hp. lia.
  - rewrite Hpre, Hdec. exact Hd.
Qed.

(** X8. The last commit wins: on an open store, with the operating system
    granting lock and release, after [commit_root_address(r1)] and
    [commit_root_address(r2)] of two 64-bit values, [get_root_address()] on
    the same instance returns [r2]. *)
Theorem last_commit_wins portalocker_lock portalocker_unlock s r1 r2 :
  granted portalocker_lock ->
  granted portalocker_unlock ->
  closed (_file s) = false ->
  0 <= r1 < 2 ^ 64 ->
  0 <= r2 < 2 ^ 64 ->
  fst ((commit_root_address portalocker_lock portalocker_unlock r1 ;;
        commit_root_address portalocker_lock portalocker_unlock r2 ;;
        get_root_address) s)
  = Ok r2.
Proof.
  intros Gl Gu Hopen H1 H2.
  destruct s as [[c p cl] l]. cbn [_file closed] in Hopen. subst cl.
  change (mkStorage (mkFile c p false) l) with (storage c p l).
  step (commit_root_address_eq portalocker_lock portalocker_unlock c p l r1
          (granted_lockable _ c p l Gl) Gu H1).
  step (commit_root_address_eq portalocker_lock portalocker_unlock
          (write_at c 0 (be_encode 8 r1)) 8 false r2
          (granted_lockable _ _ _ _ Gl) Gu H2).
  rewrite (write_at_0_encode _ r2).
  rewrite get_root_address_eq
    by (rewrite length_app, length_be_encode; lia).
  cbn [fst]. f_equal.
  rewrite firstn_append_exact by apply length_be_encode.
  apply be_decode_encode_8, H2.
Qed.

Lemma last_commit_wins_witness :
  fst ((commit_root_address always_granted always_granted 2048 ;;
        commit_root_address always_granted always_granted 2061 ;;
        get_root_address) (storage (repeat x00 2048) 0 true))
  = Ok 2061.
Proof.
  apply (last_commit_wins always_granted always_granted
           (storage (repeat x00 2048) 0 true) 2048 2061).
  - intros f _. reflexivity.
  - intros f _. reflexivity.
  - reflexivity.
  - lia.
  - lia.
Defined.

(** X9. A commit does not disturb records: on an initialized store whose
    size is a valid file offset, [write(data)] followed by
    [commit_root_address(r)] of any 64-bit value and [read] at the address
    the write returned gives back [data]. *)
Theorem record_survives_commit portalocker_lock portalocker_unlock s data r :
  granted portalocker_lock ->
  granted portalocker_unlock ->
  initialized s ->
  Z.of_nat (length (content (_file s))) <= PY_SSIZE_T_MAX ->
  Z.of_nat (length data) <= PY_SSIZE_T_MAX ->
  0 <= r < 2 ^ 64 ->
  fst ((address <- write portalocker_lock data ;;
        commit_root_address portalocker_lock portalocker_unlock r ;;
        read address) s)
  = Ok data.
Proof.
  intros Gl Gu [Hopen Hsize] Hc Hd Hr.
  destruct s as [[c p cl] l]. cbn [_file closed content] in *. subst cl.
  change (mkStorage (mkFile c p false) l) with (storage c p l).
  unfold SUPERBLOCK_SIZE in Hsize.
  step (write_eq portalocker_lock c p l data
          (granted_lockable _ c p l Gl)
          ltac:(unfold PY_SSIZE_T_MAX in Hd; lia)).
  step (commit_root_address_eq portalocker_lock portalocker_unlock
          (c ++ be_encode 8 (Z.of_nat (length data)) ++ data)
          (length c + 8 + length data) true r
          (or_introl eq_refl) Gu Hr).
  rewrite write_at_0_encode, skipn_app_long by lia.
  set (c0 := be_encode 8 r ++ skipn 8 c).
  assert (Hlen : length c0 = length c).
  { unfold c0. rewrite length_app, length_be_encode, length_skipn. lia. }
  replace (be_encode 8 r ++ skipn 8 c
           ++ be_encode 8 (Z.of_nat (length data)) ++ data)
    with (c0 ++ record data ++ [])
    by (unfold c0, record; rewrite app_nil_r, <- !app_assoc; reflexivity).
  rewrite <- Hlen. apply read_record; lia.
Qed.

Lemma record_survives_commit_witness :
  fst ((address <- write always_granted [x68; x65; x6c; x6c; x6f] ;;
        commit_root_address always_granted always_granted 2048 ;;
        read address) (storage (repeat x00 2048) 0 true))
  = Ok [x68; x65; x6c; x6c; x6f].
Proof.
  apply (record_survives_commit always_granted always_granted
           (storage (repeat x00 2048) 0 true) [x68; x65; x6c; x6c; x6f] 2048).
  - intros f _. reflexivity.
  - intros f _. reflexivity.
  - split; [reflexivity|vm_compute; discriminate].
  - vm_compute; discriminate.
  - vm_compute; discriminate.
  - lia.
Defined.

(** X16. Records persist across close and reopen: on an initialized store
    whose size is a valid file offset, [write(data)], [close()], a new
    [Storage] over the same store and [read] at the address the write
    returned give back [data]. *)
Theorem record_survives_reopen portalocker_lock portalocker_unlock s data :
  granted portalocker_lock ->
  granted portalocker_unlock ->
  initialized s ->
  Z.of_nat (length (content (_file s))) <= PY_SSIZE_T_MAX ->
  Z.of_nat (length data) <= PY_SSIZE_T_MAX ->
  fst ((address <- write portalocker_lock data ;;
        close portalocker_unlock ;;
        reopen portalocker_lock ;;
        read address) s)
  = Ok data.
Proof.
  intros Gl Gu [Hopen Hsize] Hc Hd.
  destruct s as [[c p cl] l]. cbn [_file closed content] in *. subst cl.
  change (mkStorage (mkFile c p false) l) with (storage c p l).
  step (write_eq portalocker_lock c p l data
          (granted_lockable _ c p l Gl)
          ltac:(unfold PY_SSIZE_T_MAX in Hd; lia)).
  set (c1 := c ++ be_encode 8 (Z.of_nat (length data)) ++ data).
  step (close_eq portalocker_unlock c1 (length c + 8 + length data) true Gu).
  rewrite (bind_Ok _ _ _ tt (storage c1 (length c1) true)).
  - replace c1 with (c ++ record data ++ [])
      by (unfold c1, record; rewrite app_nil_r; reflexivity).
    apply read_record; assumption.
  - unfold reopen, __init__. cbn [_file content].
    apply (_reserve_superblock_long portalocker_lock c1 0 false).
    + apply granted_lockable, Gl.
    + unfold c1. rewrite length_app. lia.
Qed.

Lemma record_survives_reopen_witness :
  fst ((address <- write always_granted [x68; x65; x6c; x6c; x6f] ;;
        close always_granted ;;
        reopen always_granted ;;
        read address) (storage (repeat x00 2048) 0 true))
  = Ok [x68; x65; x6c; x6c; x6f].
Proof.
  apply (record_survives_reopen always_granted always_granted
           (storage (repeat x00 2048) 0 true) [x68; x65; x6c; x6c; x6f]).
  - intros f _. reflexivity.
  - intros f _. reflexivity.
  - split; [reflexivity|vm_compute; discriminate].
  - vm_compute; discriminate.
  - vm_compute; discriminate.
Defined.

(** X17. The constructor initializes: over every open file, with the
    operating system granting the lock, [Storage(file)] returns an instance
    that is initialized (open, at least SUPERBLOCK_SIZE bytes), holds the
    lock, has its cursor at the end of the store, and whose store is the
    old one followed by the zero bytes that were added, none when the file
    was long enough. *)
Theorem constructor_initializes portalocker_lock c p :
  granted portalocker_lock ->
  exists s',
    __init__ portalocker_lock (opened c p) = (Ok tt, s') /\
    initialized s' /\
    locked s' = true /\
    pos (_file s') = length (store_content s') /\
    store_content s' = c ++ padding c.
Proof.
  intros G. unfold __init__.
  change (mkStorage (opened c p) false) with (storage c p false).
  pose proof (granted_lockable portalocker_lock c p false G) as L.
  destruct (Z_lt_ge_dec (Z.of_nat (length c)) SUPERBLOCK_SIZE) as [Hs|Hl].
  - rewrite (_reserve_superblock_short portalocker_lock c p false L Hs).
    eexists. split; [reflexivity|].
    unfold initialized, store_content. cbn [storage opened _file content
      closed locked pos].
    rewrite length_app, length_padding.
    repeat split; lia.
  - rewrite (_reserve_superblock_long portalocker_lock c p false L
               ltac:(lia)).
    eexists. split; [reflexivity|].
    unfold initialized, store_content, padding.
    cbn [storage opened _file content closed locked pos].
    replace (Z.to_nat (SUPERBLOCK_SIZE - Z.of_nat (length c))) with 0%nat
      by lia.
    cbn [repeat]. rewrite app_nil_r.
    repeat split; lia.
Qed.

Lemma constructor_initializes_witness :
  exists s',
    __init__ always_granted (opened [x01; x02] 1) = (Ok tt, s') /\
    initialized s' /\
    locked s' = true /\
    pos (_file s') = length (store_content s') /\
    store_content s' = [x01; x02] ++ padding [x01; x02].
Proof.
  apply (constructor_initializes always_granted [x01; x02] 1%nat).
  intros f _. reflexivity.
Defined.

(** ** Further properties: the log is append-only *)

(** [commit_root_address], whatever its outcome, leaves every byte from
    offset 8 on as it was. *)
Lemma commit_root_address_tail portalocker_lock portalocker_unlock r s :
  skipn 8 (store_content
             (snd (commit_root_address portalocker_lock portalocker_unlock
                     r s)))
  = skipn 8 (store_content s).
Proof.
  destruct s as [[c p cl] l]. unfold store_content at 2. cbn [_file content].
  destruct (lock_cases portalocker_lock (mkStorage (mkFile c p cl) l))
    as [L|[e He]].
  2:{ unfold commit_root_address. stop He. reflexivity. }
  unfold commit_root_address. step (lock_eq _ _ L). cbn [_file].
  destruct cl.
  - reflexivity.
  - change (mkStorage (mkFile c p false) true) with (storage c p true).
    step (flush_eq c p true).
    step (_seek_superblock_eq c p true).
    destruct (Z_lt_ge_dec r 0) as [Hneg|Hpos];
      [|destruct (Z_lt_ge_dec r (2 ^ 64)) as [Hlt|Hge]].
    + stop (_write_integer_range portalocker_lock c 0 r ltac:(lia)).
      reflexivity.
    + step (_write_integer_eq portalocker_lock c 0 r ltac:(lia)).
      assert (Hrest : preserves store_content
                (on_file flush ;; unlock portalocker_unlock))
        by (apply preserves_bind; [|intros ?]; auto with preserves).
      rewrite (Hrest (storage (write_at c 0 (be_encode 8 r)) (0 + 8) true)).
      unfold store_content. cbn [storage opened _file content].
      rewrite write_at_0_encode.
      apply skipn_append_exact, length_be_encode.
    + stop (_write_integer_range portalocker_lock c 0 r ltac:(lia)).
      reflexivity.
Qed.

Lemma perform_tail portalocker_lock portalocker_unlock s k :
  (8 <= length (store_content s))%nat ->
  exists suffix,
    skipn 8 (store_content (perform portalocker_lock portalocker_unlock s k))
    = skipn 8 (store_content s) ++ suffix.
Proof.
  intros H8. destruct k; cbn [perform].
  - destruct (write_appends portalocker_lock data s) as [suffix Hs].
    exists suffix. unfold store_content in *. rewrite Hs.
    apply skipn_app_long, H8.
  - exists []. rewrite app_nil_r. f_equal.
    apply (preserves_store_content _ (preserves_read address)).
  - exists []. rewrite app_nil_r. f_equal.
    apply (preserves_store_content _ preserves_get_root_address).
  - exists []. rewrite app_nil_r. apply commit_root_address_tail.
  - exists []. rewrite app_nil_r. f_equal. apply preserves_lock.
  - exists []. rewrite app_nil_r. f_equal. apply preserves_unlock.
  - exists []. rewrite app_nil_r. f_equal. apply preserves_close.
Qed.

Lemma perform_all_tail portalocker_lock portalocker_unlock calls s :
  (8 <= length (store_content s))%nat ->
  exists suffix,
    skipn 8 (store_content
               (perform_all portalocker_lock portalocker_unlock s calls))
    = skipn 8 (store_content s) ++ suffix.
Proof.
  unfold perform_all. revert s.
  induction calls as [|k calls IH]; intros s H8; cbn [fold_left].
  - exists []. rewrite app_nil_r. reflexivity.
  - destruct (perform_tail portalocker_lock portalocker_unlock s k H8)
      as [suffix1 H1].
    pose proof (perform_grows portalocker_lock portalocker_unlock s k) as Hg.
    unfold store_size, file_size in Hg.
    destruct (IH (perform portalocker_lock portalocker_unlock s k))
      as [suffix2 H2]; [unfold store_content in H8 |- *; lia|].
    exists (suffix1 ++ suffix2). rewrite H2, H1, app_assoc. reflexivity.
Qed.

(** X10. The log is append-only: on a store of at least 8 bytes, after
    every sequence of public calls, each returning or raising, the bytes
    from offset 8 on are the bytes that were there, followed by what was
    appended; only bytes [0, 8), the root address, are ever overwritten. *)
Theorem record_region_is_append_only portalocker_lock portalocker_unlock
    s calls :
  (8 <= length (store_content s))%nat ->
  exists suffix,
    skipn 8 (store_content
               (perform_all portalocker_lock portalocker_unlock s calls))
    = skipn 8 (store_content s) ++ suffix.
Proof. apply perform_all_tail. Qed.

Lemma record_region_is_append_only_witness :
  exists suffix,
    skipn 8 (store_content
               (perform_all always_granted always_granted
                  (storage (repeat x00 2048) 0 true)
                  [call_write [x2a]; call_commit_root_address 2048]))
    = skipn 8 (store_content (storage (repeat x00 2048) 0 true)) ++ suffix.
Proof.
  apply (record_region_is_append_only always_granted always_granted
           (storage (repeat x00 2048) 0 true)
           [call_write [x2a]; call_commit_root_address 2048]).
  apply Nat.leb_le. vm_compute. reflexivity.
Defined.

Lemma skipn_tail {A} (a : nat) (l l' suffix : list A) :
  (8 <= a)%nat -> (a <= length l)%nat ->
  skipn 8 l' = skipn 8 l ++ suffix ->
  skipn a l' = skipn a l ++ suffix.
Proof.
  intros H8 Ha H.
  replace a with ((a - 8) + 8)%nat by lia.
  rewrite <- !skipn_skipn, H.
  apply skipn_app_long. rewrite length_skipn. lia.
Qed.

(** X11. Records are immutable: let a record lie complete in a store whose
    size is a valid file offset, at an address of 8 or more (a prefix
    followed by at least as many bytes as it announces).  Then [read] at
    that address returns the same payload before and after every sequence
    of public calls that leaves the file open. *)
Theorem read_is_stable portalocker_lock portalocker_unlock s address calls :
  closed (_file s) = false ->
  Z.of_nat (length (store_content s)) <= PY_SSIZE_T_MAX ->
  8 <= address ->
  address + 8 + be_decode (prefix_at (store_content s) address)
  <= Z.of_nat (length (store_content s)) ->
  closed (_file (perform_all portalocker_lock portalocker_unlock s calls))
  = false ->
  exists data,
    fst (read address s) = Ok data /\
    fst (read address
           (perform_all portalocker_lock portalocker_unlock s calls))
    = Ok data.
Proof.
  intros Hopen Hmax Ha Hrec Hopen'.
  destruct (perform_all_tail portalocker_lock portalocker_unlock calls s)
    as [suffix Htail].
  { pose proof (be_decode_nonneg (prefix_at (store_content s) address)).
    lia. }
  pose proof (perform_all_grows portalocker_lock portalocker_unlock calls s)
    as Hg.
  unfold store_size, file_size in Hg.
  set (s' := perform_all portalocker_lock portalocker_unlock s calls) in *.
  destruct s as [[c p cl] l]. cbn [_file closed] in Hopen. subst cl.
  destruct s' as [[c' p' cl'] l']. cbn [_file closed] in Hopen'. subst cl'.
  unfold store_content in *. cbn [_file content] in *.
  change (mkStorage (mkFile c p false) l) with (storage c p l).
  change (mkStorage (mkFile c' p' false) l') with (storage c' p' l').
  pose proof (be_decode_nonneg (prefix_at c address)) as Hn.
  set (a := Z.to_nat address).
  assert (Hsk : skipn a c' = skipn a c ++ suffix)
    by (apply skipn_tail; [lia|lia|exact Htail]).
  assert (Hsk8 : skipn (a + 8) c' = skipn (a + 8) c ++ suffix)
    by (apply skipn_tail; [lia|lia|exact Htail]).
  assert (Hpre : prefix_at c' address = prefix_at c address).
  { unfold prefix_at. fold a. rewrite Hsk.
    apply firstn_app_long. rewrite length_skipn. lia. }
  exists (firstn (Z.to_nat (be_decode (prefix_at c address)))
            (skipn (a + 8) c)).
  split.
  - rewrite read_eq by lia. reflexivity.
  - rewrite read_eq by (rewrite ?Hpre; lia).
    cbn [fst]. fold a. rewrite Hpre, Hsk8. f_equal.
    apply firstn_app_long. rewrite length_skipn. lia.
Qed.

Lemma read_is_stable_witness :
  let s := storage (repeat x00 2048 ++ record [x68; x69]) 0 true in
  let calls := [call_write [x2a]; call_commit_root_address 2048] in
  exists data,
    fst (read 2048 s) = Ok data /\
    fst (read 2048 (perform_all always_granted always_granted s calls))
    = Ok data.
Proof.
  apply (read_is_stable always_granted always_granted
           (storage (repeat x00 2048 ++ record [x68; x69]) 0 true) 2048
           [call_write [x2a]; call_commit_root_address 2048]).
  - reflexivity.
  - vm_compute. discriminate.
  - lia.
  - vm_compute. discriminate.
  - vm_compute. reflexivity.
Defined.

(** ** Further properties: layout, close and bad addresses *)

Lemma write_all_storage portalocker_lock ds : forall c p l,
  lockable portalocker_lock (storage c p l) ->
  Forall (fun d => Z.of_nat (length d) < 2 ^ 64) ds ->
  fst (write_all portalocker_lock ds (storage c p l))
  = Ok (addresses (Z.of_nat (length c)) ds) /\
  store_content (snd (write_all portalocker_lock ds (storage c p l)))
  = c ++ concat (map record ds).
Proof.
  induction ds as [|d ds IH]; intros c p l L Hds.
  - cbn. rewrite app_nil_r. split; reflexivity.
  - inversion Hds as [|? ? Hd Hrest]; subst.
    cbn [write_all addresses map concat].
    step (write_eq portalocker_lock c p l d L Hd).
    destruct (IH (c ++ be_encode 8 (Z.of_nat (length d)) ++ d)
                 (length c + 8 + length d)%nat true
                 (or_introl eq_refl) Hrest) as [Ha Hc].
    fold (record d) in *.
    unfold bind.
    destruct (write_all portalocker_lock ds
                (storage (c ++ record d) (length c + 8 + length d) true))
      as [[rest|e] s2]; cbn [fst snd] in *; [|discriminate].
    injection Ha as ->. unfold ret. cbn [fst snd].
    rewrite Hc, length_app, length_record, <- app_assoc.
    split; [|reflexivity].
    do 2 f_equal. f_equal. lia.
Qed.

(** X12. Layout of a batch: on an open store whose lock request gets
    through, writing the payloads [ds] one after the other (each shorter
    than 2^64 bytes) returns the addresses of contiguous records starting
    at the old end of the store, and the store becomes the old bytes
    followed by, for each payload in order, its 8-byte length and the
    payload: no padding and nothing in between. *)
Theorem write_all_layout portalocker_lock s ds :
  closed (_file s) = false ->
  lockable portalocker_lock s ->
  Forall (fun d => Z.of_nat (length d) < 2 ^ 64) ds ->
  fst (write_all portalocker_lock ds s)
  = Ok (addresses (Z.of_nat (length (store_content s))) ds) /\
  store_content (snd (write_all portalocker_lock ds s))
  = store_content s ++ concat (map record ds).
Proof.
  intros Hopen L Hds.
  destruct s as [[c p cl] l]. cbn [_file closed] in Hopen. subst cl.
  change (mkStorage (mkFile c p false) l) with (storage c p l) in *.
  apply write_all_storage; assumption.
Qed.

Lemma write_all_layout_witness :
  let s := storage (repeat x00 2048) 0 true in
  let ds := [[x68; x65; x6c; x6c; x6f]; []; [x21]] in
  fst (write_all never_granted ds s)
  = Ok (addresses (Z.of_nat (length (store_content s))) ds) /\
  store_content (snd (write_all never_granted ds s))
  = store_content s ++ concat (map record ds).
Proof.
  apply (write_all_layout never_granted
           (storage (repeat x00 2048) 0 true)
           [[x68; x65; x6c; x6c; x6f]; []; [x21]]).
  - reflexivity.
  - left. reflexivity.
  - repeat constructor.
Defined.

(** X13. [close()] can be repeated: on an open store, with the operating
    system granting the release, [close()] returns and leaves the file
    closed, the lock flag cleared and the bytes of the store as they were;
    a second [close()] returns as well and changes nothing, whatever the
    operating system would answer, since no release is asked for. *)
Theorem close_twice portalocker_unlock other_unlock s :
  granted portalocker_unlock ->
  closed (_file s) = false ->
  exists s',
    close portalocker_unlock s = (Ok tt, s') /\
    closed (_file s') = true /\
    locked s' = false /\
    store_content s' = store_content s /\
    close other_unlock s' = (Ok tt, s').
Proof.
  intros G Hopen.
  destruct s as [[c p cl] l]. cbn [_file closed] in Hopen. subst cl.
  change (mkStorage (mkFile c p false) l) with (storage c p l).
  exists (mkStorage (mkFile c p true) false).
  split; [apply close_eq, G|].
  repeat split.
Qed.

Lemma close_twice_witness :
  exists s',
    close always_granted (storage (repeat x00 2048) 0 true) = (Ok tt, s') /\
    closed (_file s') = true /\
    locked s' = false /\
    store_content s' = store_content (storage (repeat x00 2048) 0 true) /\
    close never_granted s' = (Ok tt, s').
Proof.
  apply (close_twice always_granted never_granted
           (storage (repeat x00 2048) 0 true)).
  - intros f _. reflexivity.
  - reflexivity.
Defined.

Lemma seek_closed_raises f offset w :
  closed f = true -> exists e, seek offset w f = (Raise e, f).
Proof.
  intros H. unfold seek, bind, as_ssize_t, check_open.
  destruct (_ && _).
  - rewrite H. eexists. reflexivity.
  - eexists. reflexivity.
Qed.

Lemma flush_closed c p l :
  on_file flush (mkStorage (mkFile c p true) l)
  = (Raise ValueError, mkStorage (mkFile c p true) l).
Proof. reflexivity. Qed.

(** X14. Nothing works on a closed file: when the file of an instance is
    closed, [get_root_address()] raises [ValueError], [read] raises for
    every address, both leaving the instance as it was, and [write] and
    [commit_root_address] raise, for every argument and every answer of
    the operating system, without changing a byte of the store. *)
Theorem closed_file_raises s :
  closed (_file s) = true ->
  get_root_address s = (Raise ValueError, s) /\
  (forall address, exists e, read address s = (Raise e, s)) /\
  (forall portalocker_lock data,
      exists e s',
        write portalocker_lock data s = (Raise e, s') /\
        store_content s' = store_content s) /\
  (forall portalocker_lock portalocker_unlock root_address,
      exists e s',
        commit_root_address portalocker_lock portalocker_unlock
          root_address s = (Raise e, s') /\
        store_content s' = store_content s).
Proof.
  intros Hcl.
  destruct s as [[c p cl] l]. cbn [_file closed] in Hcl. subst cl.
  split; [reflexivity|split; [|split]].
  - intros address.
    destruct (seek_closed_raises (mkFile c p true) address SEEK_SET eq_refl)
      as [e He].
    exists e. unfold read. apply bind_Raise, on_file_run, He.
  - intros portalocker_lock data.
    destruct (lock_cases portalocker_lock (mkStorage (mkFile c p true) l))
      as [L|[e He]].
    + exists ValueError, (mkStorage (mkFile c p true) true).
      split; [|reflexivity].
      unfold write. step (lock_eq _ _ L). cbn [_file].
      apply bind_Raise, _seek_end_closed.
    + exists e, (mkStorage (mkFile c p true) l).
      split; [|reflexivity].
      unfold write. apply bind_Raise, He.
  - intros portalocker_lock portalocker_unlock root_address.
    destruct (lock_cases portalocker_lock (mkStorage (mkFile c p true) l))
      as [L|[e He]].
    + exists ValueError, (mkStorage (mkFile c p true) true).
      split; [|reflexivity].
      unfold commit_root_address. step (lock_eq _ _ L). cbn [_file].
      apply bind_Raise, flush_closed.
    + exists e, (mkStorage (mkFile c p true) l).
      split; [|reflexivity].
      unfold commit_root_address. apply bind_Raise, He.
Qed.

Lemma closed_file_raises_witness :
  let s := snd (close always_granted (storage (repeat x00 2048) 0 true)) in
  get_root_address s = (Raise ValueError, s) /\
  (forall address, exists e, read address s = (Raise e, s)) /\
  (forall portalocker_lock data,
      exists e s',
        write portalocker_lock data s = (Raise e, s') /\
        store_content s' = store_content s) /\
  (forall portalocker_lock portalocker_unlock root_address,
      exists e s',
        commit_root_address portalocker_lock portalocker_unlock
          root_address s = (Raise e, s') /\
        store_content s' = store_content s).
Proof.
  apply (closed_file_raises
           (snd (close always_granted (storage (repeat x00 2048) 0 true)))).
  reflexivity.
Defined.

(** X15. A negative address: on an open store, [read(address)] with
    [address < 0] raises and leaves the instance, cursor included, as it
    was. *)
Theorem read_negative_address s address :
  closed (_file s) = false ->
  address < 0 ->
  exists e, read address s = (Raise e, s).
Proof.
  intros Hopen Ha.
  destruct s as [[c p cl] l]. cbn [_file closed] in Hopen. subst cl.
  assert (H : exists e,
             seek address SEEK_SET (mkFile c p false)
             = (Raise e, mkFile c p false)).
  { unfold seek, bind, as_ssize_t, check_open. cbn [closed].
    destruct (_ && _); [|eexists; reflexivity].
    destruct (Z.ltb_spec address 0); [|lia].
    eexists. reflexivity. }
  destruct H as [e He].
  exists e. unfold read. apply bind_Raise, on_file_run, He.
Qed.

Lemma read_negative_address_witness :
  exists e,
    read (-1) (storage (repeat x00 2048) 5 true)
    = (Raise e, storage (repeat x00 2048) 5 true).
Proof.
  apply (read_negative_address (storage (repeat x00 2048) 5 true) (-1)).
  - reflexivity.
  - lia.
Defined.

(** X19. [write] never changes the root address: on an initialized store,
    [get_root_address()] returns the same value before and after a
    [write], for every payload, whether the write returned or raised. *)
Theorem write_keeps_root portalocker_lock s data :
  initialized s ->
  exists root,
    fst (get_root_address s) = Ok root /\
    fst (get_root_address (snd (write portalocker_lock data s))) = Ok root.
Proof.
  intros [Hopen Hsize].
  destruct s as [[c p cl] l]. cbn [_file closed content] in *. subst cl.
  change (mkStorage (mkFile c p false) l) with (storage c p l).
  unfold SUPERBLOCK_SIZE in Hsize.
  exists (be_decode (firstn 8 c)).
  split; [rewrite get_root_address_eq by lia; reflexivity|].
  destruct (lock_cases portalocker_lock (storage c p l)) as [L|[e He]].
  - destruct (Z_lt_ge_dec (Z.of_nat (length data)) (2 ^ 64)) as [Hd|Hd].
    + rewrite (write_eq portalocker_lock c p l data L Hd). cbn [snd].
      rewrite get_root_address_eq by (rewrite length_app; lia).
      cbn [fst]. rewrite firstn_app_long by lia. reflexivity.
    + rewrite (write_too_long portalocker_lock c p l data L ltac:(lia)).
      cbn [snd]. rewrite get_root_address_eq by lia. reflexivity.
  - unfold write. stop He. cbn [snd].
    rewrite get_root_address_eq by lia. reflexivity.
Qed.

Lemma write_keeps_root_witness :
  exists root,
    fst (get_root_address (storage (repeat x00 2048) 0 true)) = Ok root /\
    fst (get_root_address
           (snd (write always_granted [x2a]
                   (storage (repeat x00 2048) 0 true)))) = Ok root.
Proof.
  apply (write_keeps_root always_granted
           (storage (repeat x00 2048) 0 true) [x2a]).
  split; [reflexivity|vm_compute; discriminate].
Defined.
